(** * OpenHGNN recommendation flow: top-K evaluation, ranking metrics, BPR loss

    Shallow embedding of [openhgnn/trainerflow/recommendation.py].

    Numbers.  The flow computes on IEEE doubles.  Two views of them are used:
    - where the code only compares scores (argpartition, argsort) a score is
      an extended rational: every finite double is a rational, and the two
      infinities are added ([np.NINF] is the mask value);
    - where the code does analysis (log2, sigmoid, means) a value is a real
      number, plus the one non-number the code can produce on its own, the
      mean of an empty array.
    Rounding, overflow and NaN operands are outside both views.  The
    integers of numpy are 64-bit and wrap around; that is modelled where
    the flow computes on them ([compute_DCG]). *)

From Stdlib Require Import Reals QArith Lia Lra.
From stdpp Require Import base list sorting gmap sets strings.

(** ** Python outcomes *)

Inductive exn : Set :=
  | ZeroDivisionError | IndexError | ValueError | KeyError
  | RuntimeError | DGLError | NotImplementedError.

Inductive result (A : Type) : Type :=
  | Ok (a : A)
  | Raise (e : exn).
Arguments Ok {A} a.
Arguments Raise {A} e.

#[export] Instance result_ret : MRet result := fun A a => Ok a.
#[export] Instance result_bind : MBind result := fun A B f m =>
  match m with Ok a => f a | Raise e => Raise e end.

(** [l[i]] for a non-negative [i]. *)
Definition getitem {A} (l : list A) (i : nat) : result A :=
  match l !! i with Some x => Ok x | None => Raise IndexError end.

(** Python's [l[start:]]. *)
Definition slice_from {A} (start : Z) (l : list A) : list A :=
  let n := Z.of_nat (length l) in
  let s := if (start <? 0)%Z then Z.max (start + n) 0 else Z.min start n in
  drop (Z.to_nat s) l.

(** ** Scores and their order *)

Inductive score : Set :=
  | NINF
  | Fin (q : Q)
  | PINF.

Definition score_leb (a b : score) : bool :=
  match a, b with
  | NINF, _ => true
  | _, PINF => true
  | Fin x, Fin y => Qle_bool x y
  | _, _ => false
  end.

Definition score_le (a b : score) : Prop := score_leb a b = true.

#[export] Instance score_le_dec a b : Decision (score_le a b).
Proof. unfold score_le. apply _. Defined.

(** ** The numpy interface

    [argsort] and [argpartition] belong to numpy; the flow relies on their
    documented contract only (the order among equal keys and inside the two
    parts of a partition is unspecified). *)

Class Numpy : Type := {
  argsort : list score → list nat;
  argpartition : list score → nat → list nat;
  argsort_perm : ∀ a, argsort a ≡ₚ seq 0 (length a);
  argsort_ascending : ∀ a i j pi pj x y,
    i ≤ j → argsort a !! i = Some pi → argsort a !! j = Some pj →
    a !! pi = Some x → a !! pj = Some y → score_le x y;
  argpartition_perm : ∀ a kth, kth < length a →
    argpartition a kth ≡ₚ seq 0 (length a);
  argpartition_pivot : ∀ a kth j pk pj x y,
    kth < length a →
    argpartition a kth !! kth = Some pk → argpartition a kth !! j = Some pj →
    a !! pk = Some x → a !! pj = Some y →
    (j ≤ kth → score_le y x) ∧ (kth ≤ j → score_le x y)
}.

(** numpy's normalisation of an axis position [kth] against the axis
    length [n], as done for an array that has an element. *)
Definition normalize_kth (n : nat) (kth : Z) : result nat :=
  let k := if (kth <? 0)%Z then (kth + Z.of_nat n)%Z else kth in
  if ((0 <=? k) && (k <? Z.of_nat n))%Z then Ok (Z.to_nat k) else Raise ValueError.

(** [np.reshape(v, (rows, cols))]. *)
Fixpoint chunks {A} (rows cols : nat) (v : list A) : list (list A) :=
  match rows with
  | O => []
  | S r => take cols v :: chunks r cols (drop cols v)
  end.

Definition reshape {A} (v : list A) (rows cols : nat) : result (list (list A)) :=
  if decide (length v = rows * cols) then Ok (chunks rows cols v) else Raise ValueError.

(** [m[us, is] = x] with two index arrays. *)
Definition setitem2 {A} (m : list (list A)) (u i : nat) (x : A) : result (list (list A)) :=
  match m !! u with
  | Some row => if decide (i < length row) then Ok (<[u := <[i := x]> row]> m)
                else Raise IndexError
  | None => Raise IndexError
  end.

Fixpoint index_put {A} (m : list (list A)) (idx : list (nat * nat)) (x : A)
  : result (list (list A)) :=
  match idx with
  | [] => Ok m
  | (u, i) :: rest => m' ← setitem2 m u i x; index_put m' rest x
  end.

(** [np.arange(n)]. *)
Definition arange (n : nat) : list nat := seq 0 n.

(** [a[rows[:, None], idx]]: entry [u] of the result is row [rows[u]] of
    [a] read at the positions of row [u] of [idx].  (Index shapes that
    differ are rejected; numpy would still broadcast a single row, which
    the flow never produces.) *)
Definition take_rows {A} (a : list (list A)) (rows : list nat) (idx : list (list nat))
  : result (list (list A)) :=
  if decide (length rows = length idx) then
    mapM (fun p : nat * list nat => arow ← getitem a p.1; mapM (getitem arow) p.2)
         (zip rows idx)
  else Raise IndexError.

(** [a[rows, ::-1]]: the rows [rows] of [a], each one reversed. *)
Definition rows_reversed {A} (a : list (list A)) (rows : list nat)
  : result (list (list A)) :=
  mapM (fun u => arow ← getitem a u; Ok (reverse arow)) rows.

(** ** Graphs *)

Record graph : Set := {
  num_users : nat;
  num_items : nat;
  user_item : list (nat * nat)
}.

(** [g.edges(etype='user-item')]: the source and the destination arrays. *)
Definition edges (g : graph) : list nat * list nat :=
  ((user_item g).*1, (user_item g).*2).

(** [g.successors(user, etype='user-item')]. *)
Definition successors (g : graph) (user : nat) : list nat :=
  (filter (fun e => e.1 = user) (user_item g)).*2.

(** ** The flow object *)

Abbreviation tensor := (list R).
Abbreviation matrix := (list (list R)).

(** The attributes of [Recommendation] that the modelled methods read or
    write.  [params] stands for the state of the external embedding model
    and of its optimizer. *)
Record Recommendation : Type := {
  reg_weight : R;
  topk : nat;
  num_neg : nat;
  num_user : nat;
  num_item : nat;
  positive_graph : graph;
  negative_graph : graph;
  val_hg : graph;
  test_hg : graph;
  params : list R
}.

(** ** Top-K evaluator: [_test_step], from the reshape to [pred_list] *)

Section TopK.
Context `{Numpy}.

(** The score matrix after [score_matrix[train_u, train_i] = np.NINF]. *)
Definition masked_scores (self : Recommendation) (scores : list score)
  : result (list (list score)) :=
  score_matrix ← reshape scores (num_user self) (num_item self);
  let '(train_u, train_i) := edges (positive_graph self) in
  index_put score_matrix (zip train_u train_i) NINF.

(** [np.argpartition(m, kth)] along the last axis of an [(U, I)] matrix.
    numpy checks [kth] only on a matrix that has an element: with no row or
    no column the result is the index matrix of the same shape, which has
    no entry either, whatever [kth] is. *)
Definition argpartition_rows (I : nat) (m : list (list score)) (kth : Z)
  : result (list (list nat)) :=
  if decide (length m * I = 0) then Ok ((fun _ => []) <$> m)
  else k ← normalize_kth I kth; Ok ((fun row => argpartition row k) <$> m).

Definition pred_list (self : Recommendation) (scores : list score)
  : result (list (list nat)) :=
  score_matrix ← masked_scores self scores;
  ind ← argpartition_rows (num_item self) score_matrix (- Z.of_nat (topk self));
  let ind := slice_from (- Z.of_nat (topk self)) <$> ind in
  arr_ind ← take_rows score_matrix (arange (num_user self)) ind;
  arr_ind_argsort ← rows_reversed (argsort <$> arr_ind) (arange (num_user self));
  take_rows ind (arange (length score_matrix)) arr_ind_argsort.
End TopK.

(** ** Metrics engine *)

(** A numpy or torch float: a real number, or the non-number that the mean
    of an empty array is. *)
Inductive npfloat : Type :=
  | Num (r : R)
  | NaN.

Definition fadd (a b : npfloat) : npfloat :=
  match a, b with Num x, Num y => Num (x + y) | _, _ => NaN end.
Definition fmul (a b : npfloat) : npfloat :=
  match a, b with Num x, Num y => Num (x * y) | _, _ => NaN end.
Definition fneg (a : npfloat) : npfloat :=
  match a with Num x => Num (- x) | NaN => NaN end.

Definition Rsum (l : list R) : R := foldr Rplus 0%R l.

(** [np.mean] and [torch.mean] of a flat array. *)
Definition mean (l : list R) : npfloat :=
  match l with
  | [] => NaN
  | _ => Num (Rsum l / INR (length l))
  end.

Definition log2 (x : R) : R := (ln x / ln 2)%R.

(** numpy holds a list of Python integers (taken to fit 64 bits, as the
    0 and 1 of a hit list do) as 64-bit signed integers, and arithmetic on
    them wraps around. *)
Definition wrap_int64 (z : Z) : Z := ((z + 2 ^ 63) mod 2 ^ 64 - 2 ^ 63)%Z.

(** One entry of [np.power(2, l) - 1]: computed on 64-bit integers, and
    made a double only by the division that follows. *)
Definition gain (r : nat) : R :=
  IZR (wrap_int64 (wrap_int64 (2 ^ Z.of_nat r) - 1)).

Definition compute_DCG (l : list nat) : R :=
  if decide (length l ≠ 0) then
    Rsum (zip_with Rdiv (gain <$> l)
                        ((fun i => log2 (INR i)) <$> seq 2 (length l)))
  else 0%R.

(** A [for] loop whose body may raise. *)
Fixpoint for_each {A S} (body : S → A → result S) (s : S) (l : list A) : result S :=
  match l with
  | [] => Ok s
  | x :: rest => s' ← body s x; for_each body s' rest
  end.

Definition range (n : nat) : list nat := seq 0 n.

(** One turn of the loop of [recall_at_k], on the pair [(sum, test_users)]. *)
Definition recall_body (pred_list : list (list nat)) (test_graph : graph) (k : nat)
    (st : R * nat) (user : nat) : result (R * nat) :=
  let '(sum, test_users) := st in
  let test_items_set : gset nat := list_to_set (successors test_graph user) in
  row ← getitem pred_list user;
  let pred_items_set : gset nat := list_to_set (take k row) in
  if decide (size test_items_set ≠ 0) then
    Ok ((sum + INR (size (test_items_set ∩ pred_items_set))
               / INR (size test_items_set))%R, test_users + 1)
  else Ok (sum, test_users).

Definition recall_at_k (pred_list : list (list nat)) (test_graph : graph) (k : nat)
  : result R :=
  '(sum, test_users) ← for_each (recall_body pred_list test_graph k) (0%R, 0)
                                (range (num_users test_graph));
  if decide (test_users = 0) then Raise ZeroDivisionError
  else Ok (sum / INR test_users)%R.

(** Iterating over a Python set visits each member once, in an order the
    language leaves open. *)
Class PySet : Type := {
  set_iter : gset nat → list nat;
  set_iter_perm : ∀ X, set_iter X ≡ₚ elements X
}.

Section NDCG.
Context `{PySet}.

Definition hit_list_of (test_items_set : gset nat) (pred_items_set : list nat) : list nat :=
  (fun i => if decide (i ∈ pred_items_set) then 1 else 0) <$> set_iter test_items_set.

Definition ideal_hit_list_of (GT k : nat) : list nat :=
  if decide (k ≤ GT) then replicate k 1
  else replicate GT 1 ++ replicate (k - GT) 0.

(** One turn of the loop of [ndcg_at_k]. *)
Definition ndcg_body (pred_list : list (list nat)) (test_graph : graph) (k : nat)
    (ndcg : list R) (user : nat) : result (list R) :=
  let test_items_set : gset nat := list_to_set (successors test_graph user) in
  row ← getitem pred_list user;
  let pred_items_set := take k row in
  let hit_list := hit_list_of test_items_set pred_items_set in
  let GT := size test_items_set in
  let ideal_hit_list := ideal_hit_list_of GT k in
  let idcg := compute_DCG ideal_hit_list in
  if Req_dec_T idcg 0 then Ok ndcg
  else Ok (ndcg ++ [(compute_DCG hit_list / idcg)%R]).

Definition ndcg_at_k (pred_list : list (list nat)) (test_graph : graph) (k : nat)
  : result npfloat :=
  ndcg ← for_each (ndcg_body pred_list test_graph k) [] (range (num_users test_graph));
  Ok (mean ndcg).
End NDCG.

(** ** Score predictor and ranking loss *)

Abbreviation embedding := (gmap string (list (list R))).

(** [x[key]] on a dict. *)
Definition dict_get {V} (d : gmap string V) (key : string) : result V :=
  match d !! key with Some v => Ok v | None => Raise KeyError end.

(** [dgl.function.u_dot_v] on one edge. *)
Definition u_dot_v (hu hv : list R) : result R :=
  if decide (length hu = length hv) then Ok (Rsum (zip_with Rmult hu hv))
  else Raise DGLError.

(** Assigning node data checks the row count against the node count. *)
Definition set_ndata (count : nat) (x : matrix) : result matrix :=
  if decide (length x = count) then Ok x else Raise DGLError.

(** [apply_edges] compares the feature widths of the two node types
    before it visits an edge, so that a mismatch is an error on a graph
    without edges too.  (A matrix without rows carries no width here, and
    passes.) *)
Definition check_widths (xu xi : matrix) : result unit :=
  match xu, xi with
  | hu :: _, hv :: _ =>
      if decide (length hu = length hv) then Ok () else Raise DGLError
  | _, _ => Ok ()
  end.

(** One score per [user-item] edge.  The result of [squeeze] is kept as the
    flat list of its entries. *)
Definition ScorePredictor (edge_subgraph : graph) (x : embedding) : result tensor :=
  xu ← dict_get x "user";
  xu ← set_ndata (num_users edge_subgraph) xu;
  xi ← dict_get x "item";
  xi ← set_ndata (num_items edge_subgraph) xi;
  _ ← check_widths xu xi;
  mapM (fun e : nat * nat => hu ← getitem xu e.1; hv ← getitem xi e.2; u_dot_v hu hv)
       (user_item edge_subgraph).

Definition repeat_interleave (n : nat) (t : tensor) : tensor :=
  t ≫= replicate n.

(** [a - b] on flat tensors, with torch's broadcasting of a one-entry operand. *)
Definition tensor_sub (a b : tensor) : result tensor :=
  if decide (length a = length b) then Ok (zip_with Rminus a b)
  else match a, b with
       | [x], _ => Ok ((fun y => (x - y)%R) <$> b)
       | _, [y] => Ok ((fun x => (x - y)%R) <$> a)
       | _, _ => Raise RuntimeError
       end.

Definition sigmoid (x : R) : R := (1 / (1 + exp (- x)))%R.

(** [th.zeros(1, 1)], then [+= th.mean(e.pow(2))] for every value of the dict. *)
Definition regularization_loss (emb : embedding) : npfloat :=
  map_fold (fun _ (e : matrix) reg_loss =>
              fadd reg_loss (mean ((fun v => (v ^ 2)%R) <$> concat e)))
           (Num 0) emb.

Definition loss_calculation (self : Recommendation)
    (positive_graph negative_graph : graph) (emb : embedding) : result npfloat :=
  p ← ScorePredictor positive_graph emb;
  let p_score := repeat_interleave (num_neg self) p in
  n_score ← ScorePredictor negative_graph emb;
  d ← tensor_sub p_score n_score;
  let bpr_loss := fneg (mean ((fun v => ln (sigmoid v)) <$> d)) in
  let reg_loss := regularization_loss emb in
  Ok (fadd bpr_loss (fmul (Num (reg_weight self)) reg_loss)).

(** ** The flow as a transition system

    [__init__] builds the object; the methods that assign to [self] are
    [preprocess] (the graphs of the split) and [_full_train_step] (the
    optimizer moves the model); [_test_step] assigns nothing.  [__init__]
    assigns no graph: the graph fields of [init] are placeholders, which
    [preprocess] overwrites before any method reads them. *)

Definition init (dataset_num_neg users items : nat) (model0 : list R) : Recommendation :=
  {| reg_weight := 0; topk := 20; num_neg := dataset_num_neg;
     num_user := users; num_item := items;
     positive_graph := Build_graph users items [];
     negative_graph := Build_graph users items [];
     val_hg := Build_graph users items [];
     test_hg := Build_graph users items [];
     params := model0 |}.

Definition preprocess (self : Recommendation) (train_pos train_neg val test : graph)
  : Recommendation :=
  {| reg_weight := reg_weight self; topk := topk self; num_neg := num_neg self;
     num_user := num_user self; num_item := num_item self;
     positive_graph := train_pos; negative_graph := train_neg;
     val_hg := val; test_hg := test; params := params self |}.

Definition optimizer_step (self : Recommendation) (model' : list R) : Recommendation :=
  {| reg_weight := reg_weight self; topk := topk self; num_neg := num_neg self;
     num_user := num_user self; num_item := num_item self;
     positive_graph := positive_graph self; negative_graph := negative_graph self;
     val_hg := val_hg self; test_hg := test_hg self; params := model' |}.

Inductive step : Recommendation → Recommendation → Prop :=
  | step_preprocess self g1 g2 g3 g4 :
      step self (preprocess self g1 g2 g3 g4)
  | step_full_train self emb loss model' :
      loss_calculation self (positive_graph self) (negative_graph self) emb = Ok loss →
      step self (optimizer_step self model')
  | step_test self :
      step self self.

Definition reachable (self : Recommendation) : Prop :=
  ∃ n u i m, rtc step (init n u i m) self.

(** The states of a run from [preprocess] on, where [train] evaluates. *)
Definition preprocessed (self : Recommendation) : Prop :=
  ∃ s0 g1 g2 g3 g4, reachable s0 ∧ rtc step (preprocess s0 g1 g2 g3 g4) self.

(** ** Reading the evaluator's result *)

(** The score of column [c] in a row of the masked matrix. *)
Definition score_at (a : list score) (c : nat) : score := default NINF (a !! c).

(** What [pred_list] makes of one row [a], given the normalised [kth]. *)
Definition ranked_row `{Numpy} (kth : nat) (a : list score) : list nat :=
  let ind := drop kth (argpartition a kth) in
  let arr_ind := score_at a <$> ind in
  (fun j => default 0 (ind !! j)) <$> reverse (argsort arr_ind).

Definition is_NINF (s : score) : bool :=
  match s with NINF => true | _ => false end.

(** The columns a user may be recommended: not a training positive of the
    user, and scored above negative infinity. *)
Definition eligible (self : Recommendation) (scores : list score) (u : nat) : list nat :=
  filter (fun c => ((u, c) ∉ user_item (positive_graph self))
                   ∧ (is_NINF <$> scores !! (u * num_item self + c) = Some false))
         (seq 0 (num_item self)).

(** [prow] ranks the row [a] of a matrix with [ncols] columns: it lists
    distinct columns, no column left out scores above a column kept, and
    the scores along [prow] never increase. *)
Definition is_ranking (ncols : nat) (a : list score) (prow : list nat) : Prop :=
  NoDup prow
  ∧ (∀ c, c ∈ prow → c < ncols)
  ∧ (∀ c c', c ∈ prow → c' < ncols → c' ∉ prow →
       score_le (score_at a c') (score_at a c))
  ∧ (∀ j c c', prow !! j = Some c → prow !! S j = Some c' →
       score_le (score_at a c') (score_at a c)).

(** ** A reference implementation of the numpy interface

    A full argsort (stdpp's merge sort on the column numbers, compared by
    score) meets both contracts; it makes the evaluator executable. *)

Definition key_le (a : list score) (i j : nat) : Prop :=
  score_le (score_at a i) (score_at a j).

#[export] Instance key_le_dec a i j : Decision (key_le a i j).
Proof. unfold key_le. apply _. Defined.

Definition sort_argsort (a : list score) : list nat :=
  merge_sort (key_le a) (seq 0 (length a)).

Definition sort_argpartition (a : list score) (kth : nat) : list nat :=
  sort_argsort a.

(** ** The metrics in the words of the specification *)

(** [DCG(r) = Σ_{i=1}^{n} (2^{r_i} - 1) / log2(i + 1)], with [r_i] the
    [i]-th entry of [r] counted from one. *)
Definition DCG_formula (r : list nat) : R :=
  Rsum ((fun i => ((2 ^ nth (i - 1) r 0%nat) - 1) / log2 (INR (i + 1)))%R
          <$> seq 1 (length r)).

(** The held-out items of a user and the user's top-K items, as sets. *)
Definition heldout (g : graph) (u : nat) : gset nat :=
  list_to_set (successors g u).

Definition topK (pred : list (list nat)) (k u : nat) : gset nat :=
  list_to_set (take k (default [] (pred !! u))).

(** [recall_u = |topK(u) ∩ heldout(u)| / |heldout(u)|]. *)
Definition recall_u (pred : list (list nat)) (g : graph) (k u : nat) : R :=
  (INR (size (topK pred k u ∩ heldout g u)) / INR (size (heldout g u)))%R.

(** The users with a non-empty held-out set. *)
Definition evaluated_users (g : graph) : list nat :=
  filter (fun u => heldout g u ≠ ∅) (range (num_users g)).

(** The arithmetic mean of [recall_u] over those users. *)
Definition mean_recall (pred : list (list nat)) (g : graph) (k : nat) : R :=
  (Rsum (recall_u pred g k <$> evaluated_users g)
   / INR (length (evaluated_users g)))%R.

(** The value [ndcg_at_k] records for a user with held-out items. *)
Definition ndcg_u `{PySet} (pred : list (list nat)) (g : graph) (k u : nat) : R :=
  (compute_DCG (hit_list_of (heldout g u) (take k (default [] (pred !! u))))
   / compute_DCG (ideal_hit_list_of (size (heldout g u)) k))%R.

(** The discounted gain of a list whose first entry sits at rank [s - 1],
    and the sum of the first [n] discounts from there; [compute_DCG] starts
    at [s = 2]. *)
Definition dcg_from (s : nat) (l : list nat) : R :=
  Rsum (zip_with Rdiv (gain <$> l)
                      ((fun i => log2 (INR i)) <$> seq s (length l))).

Definition disc_sum (s n : nat) : R :=
  Rsum ((fun i => (1 / log2 (INR i))%R) <$> seq s n).

(** Iterating a set in the order of stdpp's [elements]. *)
#[export] Instance pyset_by_elements : PySet :=
  {| set_iter := elements; set_iter_perm := fun X => reflexivity (elements X) |}.

(** ** The loss in the words of the specification *)

(** [mean(-log(sigmoid(p - n)))], where negative [j] faces positive
    [j / num_neg]: each positive score is repeated [num_neg] times. *)
Definition bpr_term (num_neg : nat) (p n : tensor) : npfloat :=
  mean ((fun j => (- ln (sigmoid (nth (j / num_neg) p 0 - nth j n 0)))%R)
          <$> seq 0 (length n)).

(** The sum over the node types of the mean of the squared entries of the
    type's embedding matrix. *)
Definition reg_term (emb : embedding) : npfloat :=
  foldr fadd (Num 0)
        ((fun e : matrix => mean ((fun v => (v ^ 2)%R) <$> concat e))
           <$> (map_to_list emb).*2).

(** The BPR term alone, on the scores of the two graphs. *)
Definition pure_bpr (self : Recommendation) (pos neg : graph) (emb : embedding)
  : result npfloat :=
  p ← ScorePredictor pos emb;
  n ← ScorePredictor neg emb;
  d ← tensor_sub (repeat_interleave (num_neg self) p) n;
  Ok (mean ((fun v => (- ln (sigmoid v))%R) <$> d)).

(** ** A small flow to run the definitions on

    Two users, three items; user 0 has item 0 as a training positive and
    item 1 held out for test. *)

Definition small_flow (K : nat) : Recommendation :=
  {| reg_weight := 0; topk := K; num_neg := 1; num_user := 2; num_item := 3;
     positive_graph := Build_graph 2 3 [(0, 0)];
     negative_graph := Build_graph 2 3 [(0, 2)];
     val_hg := Build_graph 2 3 [];
     test_hg := Build_graph 2 3 [(0, 1)];
     params := [] |}.

Definition small_scores : list score :=
  [Fin 9; Fin 5; Fin 1;  Fin 1; Fin 2; Fin 3].

(** One user whose two held-out items are ranked last among three. *)
Definition two_heldout : graph := Build_graph 1 3 [(0, 1); (0, 2)].

(** Embeddings of dimension one for the small flow, and the same with a
    third node type that has no node. *)
Definition small_emb : embedding :=
  {[ "user" := [[1%R]; [1%R]]; "item" := [[1%R]; [0%R]; [2%R]] ]}.

Definition emb_with_empty_type : embedding :=
  <["tag" := []]> small_emb.

(** ** [preprocess]: the evaluation graph

    [src = th.arange(U).repeat_interleave(I)], [dst = th.arange(I).repeat(U)]:
    one [user-item] edge for every pair of a user and an item. *)

Definition index_repeat_interleave (n : nat) (t : list nat) : list nat :=
  t ≫= replicate n.

Definition index_repeat (n : nat) (t : list nat) : list nat :=
  concat (replicate n t).

Definition eval_graph (users items : nat) : graph :=
  let src := index_repeat_interleave items (arange users) in
  let dst := index_repeat users (arange items) in
  Build_graph users items (zip src dst).

(** The dot product that [u_dot_v] takes on rows of equal length. *)
Definition dot (hu hv : list R) : R := Rsum (zip_with Rmult hu hv).

(** The graph [_test_step] picks for a split. *)
Definition split_graph (self : Recommendation) (split : string) : result graph :=
  if decide (split = "val") then Ok (val_hg self)
  else if decide (split = "test") then Ok (test_hg self)
  else Raise ValueError.

(** ** [_test_step]

    [model] is what [self.model(self.hg, self.input_feature())] comes to:
    an embedding, or the error the call raises.  [self.eval_graph] is the
    graph [preprocess] builds from [num_user] and [num_item], which no
    method reassigns.  With [detach().cpu().numpy()] the scores leave torch
    for numpy, where only their order is used: [as_score] is the double
    that a real-valued score is stored as.  The metrics are those of
    [self.metric = ['recall', 'ndcg']], in that order. *)

Class Floats : Type := {
  as_score : R → score
}.

Definition metric : list string := ["recall"; "ndcg"].

Definition _test_step `{Numpy} `{PySet} `{Floats} (self : Recommendation)
    (split : string) (model : result embedding) : result (gmap string npfloat) :=
  test_graph ← (if decide (split = "val") then Ok (val_hg self)
                else if decide (split = "test") then Ok (test_hg self)
                else Raise ValueError);
  embedding ← model;
  score_matrix ← ScorePredictor (eval_graph (num_user self) (num_item self)) embedding;
  let score_matrix := as_score <$> score_matrix in
  pred_list ← pred_list self score_matrix;
  for_each (fun (metric_dic : gmap string npfloat) (m : string) =>
              metric_k ← (if decide (m = "recall") then
                            r ← recall_at_k pred_list test_graph (topk self); Ok (Num r)
                          else if decide (m = "ndcg") then
                            ndcg_at_k pred_list test_graph (topk self)
                          else Raise NotImplementedError);
              Ok (<[m := metric_k]> metric_dic))
           ∅ metric.

(** A storage of scores to run [_test_step] on: the next integer above. *)
#[export] Instance floats_by_integers : Floats :=
  {| as_score := fun r => Fin (inject_Z (up r)) |}.

(** The small flow as a run reaches it: [__init__], then [preprocess] on
    the graphs of the small flow.  Its cutoff is 20. *)
Definition small_run : Recommendation :=
  preprocess (init 1 2 3 [])
             (positive_graph (small_flow 2)) (negative_graph (small_flow 2))
             (val_hg (small_flow 2)) (test_hg (small_flow 2)).

(** Three negatives for one positive under [num_neg = 2]: a layout the
    loss cannot align. *)
Definition three_negatives : graph := Build_graph 2 3 [(0, 2); (0, 1); (1, 0)].

(** * Properties *)

(** ** The order on scores *)

Lemma score_le_refl a : score_le a a.
Proof.
  destruct a; unfold score_le; simpl; auto.
  apply Qle_bool_iff, Qle_refl.
Qed.

Lemma score_le_trans a b c : score_le a b → score_le b c → score_le a c.
Proof.
  unfold score_le.
  destruct a as [|x|], b as [|y|], c as [|z|]; simpl; auto; try discriminate.
  rewrite !Qle_bool_iff. apply Qle_trans.
Qed.

Lemma score_le_total a b : score_le a b ∨ score_le b a.
Proof.
  unfold score_le.
  destruct a as [|x|], b as [|y|]; simpl; auto.
  rewrite !Qle_bool_iff.
  destruct (Qlt_le_dec x y) as [Hlt|Hle]; [left; apply Qlt_le_weak, Hlt | right; exact Hle].
Qed.

Lemma score_le_NINF a : score_le a NINF → a = NINF.
Proof. destruct a; unfold score_le; simpl; congruence. Qed.

(** ** Outcomes of [mapM] and of indexing *)

Lemma bind_Ok {A B} (f : A → result B) (m : result A) (b : B) :
  m ≫= f = Ok b ↔ ∃ a, m = Ok a ∧ f a = Ok b.
Proof.
  destruct m as [a|e]; simpl; split.
  - intros Hf. exists a. auto.
  - intros (a' & [= <-] & Hf). exact Hf.
  - discriminate.
  - intros (a' & Hm & _). discriminate.
Qed.

Lemma bind_Ok_l {A B} (f : A → result B) (a : A) : Ok a ≫= f = f a.
Proof. reflexivity. Qed.

Lemma mapM_Ok {A B} (f : A → result B) (l : list A) (k : list B) :
  mapM f l = Ok k ↔ Forall2 (fun x y => f x = Ok y) l k.
Proof.
  revert k. induction l as [|x l IH]; intros k; simpl.
  - split.
    + intros [= <-]. constructor.
    + intros Hk. inversion Hk. reflexivity.
  - rewrite bind_Ok. split.
    + intros (y & Hy & Hrest). apply bind_Ok in Hrest as (k' & Hk' & [= <-]).
      constructor; [exact Hy | apply IH, Hk'].
    + intros Hk. inversion Hk as [|? y ? k' Hy Hk']; subst.
      exists y. split; [exact Hy|]. apply bind_Ok. exists k'.
      split; [apply IH, Hk' | reflexivity].
Qed.

Lemma getitem_Ok {A} (l : list A) i x : getitem l i = Ok x ↔ l !! i = Some x.
Proof. unfold getitem. destruct (l !! i); split; congruence. Qed.

(** Reading a list at given positions is a map. *)
Lemma lookups_fmap {A} (d : A) (l : list A) (idx : list nat) (out : list A) :
  Forall2 (fun i x => l !! i = Some x) idx out →
  out = (fun i => default d (l !! i)) <$> idx.
Proof.
  induction 1 as [|i x idx out Hi _ IH]; simpl; [reflexivity|].
  rewrite Hi. simpl. f_equal. exact IH.
Qed.

Lemma lookups_all {A} (l : list A) :
  Forall2 (fun i x => l !! i = Some x) (seq 0 (length l)) l.
Proof.
  apply Forall2_same_length_lookup_2.
  - rewrite length_seq. reflexivity.
  - intros i j x Hj Hx. apply lookup_seq in Hj as [-> _]. exact Hx.
Qed.

(** ** Shapes: reshape and masking *)

Lemma chunks_shape {A} rows cols (v : list A) :
  length v = rows * cols →
  length (chunks rows cols v) = rows ∧ Forall (fun r => length r = cols) (chunks rows cols v).
Proof.
  revert v. induction rows as [|rows IH]; intros v Hv; simpl.
  - split; [reflexivity | constructor].
  - destruct (IH (drop cols v)) as [Hlen Hall].
    { rewrite length_drop. lia. }
    split; [lia|]. constructor; [|exact Hall].
    rewrite length_take. lia.
Qed.

Lemma chunks_lookup {A} rows cols (v : list A) u row c :
  chunks rows cols v !! u = Some row → c < cols → row !! c = v !! (u * cols + c).
Proof.
  revert v u. induction rows as [|rows IH]; intros v u Hu Hc; simpl in Hu.
  - discriminate.
  - destruct u as [|u]; simpl in *.
    + injection Hu as <-. apply lookup_take_lt. exact Hc.
    + rewrite (IH _ _ Hu Hc), lookup_drop. f_equal. lia.
Qed.

Lemma setitem2_spec {A} (m m' : list (list A)) u i x :
  setitem2 m u i x = Ok m' →
  length m' = length m ∧
  ∀ u' row', m' !! u' = Some row' →
    ∃ row, m !! u' = Some row ∧ length row' = length row ∧
      ∀ c, row' !! c = if decide ((u', c) = (u, i)) then Some x else row !! c.
Proof.
  unfold setitem2. destruct (m !! u) as [row|] eqn:Hu; [|discriminate].
  destruct (decide (i < length row)) as [Hi|]; [|discriminate].
  intros [= <-]. split; [apply length_insert|].
  intros u' row' Hrow'. destruct (decide (u' = u)) as [->|Hne].
  - rewrite list_lookup_insert_eq in Hrow' by (eapply lookup_lt_Some; eauto).
    injection Hrow' as <-. exists row. split; [exact Hu|].
    split; [apply length_insert|]. intros c.
    destruct (decide (c = i)) as [->|Hc].
    + rewrite decide_True by reflexivity. apply list_lookup_insert_eq, Hi.
    + rewrite decide_False by congruence. apply list_lookup_insert_ne. congruence.
  - rewrite list_lookup_insert_ne in Hrow' by congruence.
    exists row'. split; [exact Hrow'|]. split; [reflexivity|]. intros c.
    rewrite decide_False by congruence. reflexivity.
Qed.

Lemma index_put_spec {A} (idx : list (nat * nat)) (m m' : list (list A)) x :
  index_put m idx x = Ok m' →
  length m' = length m ∧
  ∀ u row', m' !! u = Some row' →
    ∃ row, m !! u = Some row ∧ length row' = length row ∧
      ∀ c, c < length row →
        row' !! c = if decide ((u, c) ∈ idx) then Some x else row !! c.
Proof.
  revert m. induction idx as [|[u0 i0] idx IH]; intros m; cbn [index_put].
  - intros [= <-]. split; [reflexivity|]. intros u row' Hrow'.
    exists row'. split; [exact Hrow'|]. split; [reflexivity|]. intros c _.
    rewrite decide_False by apply not_elem_of_nil. reflexivity.
  - intros Hput. apply bind_Ok in Hput as (m1 & Hset & Hput).
    apply setitem2_spec in Hset as [Hlen1 Hrows1].
    apply IH in Hput as [Hlen' Hrows']. split; [congruence|].
    intros u row' Hrow'.
    destruct (Hrows' _ _ Hrow') as (row1 & Hrow1 & Hl1 & Hc1).
    destruct (Hrows1 _ _ Hrow1) as (row & Hrow & Hl & Hc).
    exists row. split; [exact Hrow|]. split; [congruence|]. intros c Hlt.
    rewrite Hc1 by lia. rewrite Hc.
    destruct (decide ((u, c) ∈ idx)) as [Hin|Hnin].
    + rewrite decide_True by (right; exact Hin). reflexivity.
    + destruct (decide ((u, c) = (u0, i0))) as [Heq|Hneq].
      * rewrite decide_True by (rewrite Heq; left). reflexivity.
      * rewrite decide_False; [reflexivity|].
        intros Hin. apply elem_of_cons in Hin as [?|?]; contradiction.
Qed.

Lemma index_put_total {A} (idx : list (nat * nat)) (m : list (list A)) x rows cols :
  length m = rows → Forall (fun r => length r = cols) m →
  Forall (fun e => e.1 < rows ∧ e.2 < cols) idx →
  ∃ m', index_put m idx x = Ok m'.
Proof.
  revert m. induction idx as [|[u0 i0] idx IH]; intros m Hlen Hall Hidx; simpl.
  - eauto.
  - apply Forall_cons in Hidx as [[Hu Hi] Hidx]. simpl in Hu, Hi.
    destruct (lookup_lt_is_Some_2 m u0) as [row Hrow]; [lia|].
    assert (length row = cols) as Hrl.
    { eapply (proj1 (Forall_lookup _ _) Hall); eauto. }
    assert (setitem2 m u0 i0 x = Ok (<[u0 := <[i0 := x]> row]> m)) as Hset.
    { unfold setitem2. rewrite Hrow, decide_True by lia. reflexivity. }
    rewrite Hset. simpl. apply IH.
    + rewrite length_insert. exact Hlen.
    + apply Forall_insert; [exact Hall|]. rewrite length_insert. exact Hrl.
    + exact Hidx.
Qed.

Lemma edges_zip (g : graph) :
  zip (edges g).1 (edges g).2 = user_item g.
Proof. unfold edges. simpl. apply zip_fst_snd. Qed.

Lemma normalize_kth_Ok n K k :
  normalize_kth n (- Z.of_nat K) = Ok k ↔
  (K = 0 ∧ 0 < n ∧ k = 0) ∨ (0 < K ∧ K ≤ n ∧ k = n - K).
Proof.
  unfold normalize_kth.
  destruct (- Z.of_nat K <? 0)%Z eqn:Hneg.
  - apply Z.ltb_lt in Hneg.
    destruct ((0 <=? - Z.of_nat K + Z.of_nat n)
              && (- Z.of_nat K + Z.of_nat n <? Z.of_nat n))%Z eqn:Hb.
    + apply andb_true_iff in Hb as [H0 H1].
      apply Z.leb_le in H0. apply Z.ltb_lt in H1. split.
      * intros [= <-]. right. lia.
      * intros [?|(? & ? & ->)]; [lia|]. f_equal. lia.
    + split; [discriminate|]. intros [?|(? & ? & ->)]; [lia|]. exfalso.
      apply andb_false_iff in Hb as [Hb|Hb];
        [apply Z.leb_gt in Hb | apply Z.ltb_ge in Hb]; lia.
  - apply Z.ltb_ge in Hneg. assert (K = 0) as -> by lia.
    change (- Z.of_nat 0)%Z with 0%Z.
    destruct ((0 <=? 0) && (0 <? Z.of_nat n))%Z eqn:Hb.
    + apply andb_true_iff in Hb as [_ H1]. apply Z.ltb_lt in H1. split.
      * intros [= <-]. left. lia.
      * intros [(_ & _ & ->)|?]; [reflexivity | lia].
    + split; [discriminate|]. intros [(_ & ? & _)|?]; [|lia]. exfalso.
      apply andb_false_iff in Hb as [Hb|Hb];
        [apply Z.leb_gt in Hb | apply Z.ltb_ge in Hb]; lia.
Qed.

Lemma slice_from_drop {A} (l : list A) K k :
  normalize_kth (length l) (- Z.of_nat K) = Ok k →
  slice_from (- Z.of_nat K) l = drop k l.
Proof.
  intros Hk. apply normalize_kth_Ok in Hk. unfold slice_from.
  destruct Hk as [(-> & _ & ->)|(HK & Hle & ->)].
  - change (- Z.of_nat 0)%Z with 0%Z. rewrite Z.ltb_irrefl. f_equal. lia.
  - destruct (Z.ltb_spec (- Z.of_nat K) 0); [|lia]. f_equal. lia.
Qed.

Lemma take_rows_fmap {A B} (f1 : B → list A) (f2 : B → list nat) (g : B → list A)
    (m : list B) :
  Forall (fun a => Forall2 (fun i x => f1 a !! i = Some x) (f2 a) (g a)) m →
  take_rows (f1 <$> m) (arange (length m)) (f2 <$> m) = Ok (g <$> m).
Proof.
  intros Hall. unfold take_rows, arange.
  rewrite decide_True by (rewrite length_seq, length_fmap; reflexivity).
  apply mapM_Ok, Forall2_same_length_lookup_2.
  - rewrite length_zip_with, length_seq, !length_fmap. lia.
  - intros i [u irow] brow Hz Hb.
    apply lookup_zip_with_Some in Hz as (u' & irow' & [= -> ->] & Hu & Hirow).
    apply lookup_seq in Hu as [-> _].
    apply list_lookup_fmap_Some in Hirow as (b & -> & Hmb).
    apply list_lookup_fmap_Some in Hb as (b' & -> & Hmb').
    assert (b' = b) as -> by congruence.
    simpl.
    assert (getitem (f1 <$> m) i = Ok (f1 b)) as ->
      by (apply getitem_Ok; rewrite list_lookup_fmap, Hmb; reflexivity).
    rewrite bind_Ok_l.
    apply mapM_Ok. eapply Forall2_impl.
    + apply (proj1 (Forall_lookup _ _) Hall _ _ Hmb).
    + intros j x Hx. apply getitem_Ok, Hx.
Qed.

Lemma rows_reversed_fmap {A B} (h : B → list A) (m : list B) :
  rows_reversed (h <$> m) (arange (length m)) = Ok ((fun b => reverse (h b)) <$> m).
Proof.
  unfold rows_reversed, arange.
  apply mapM_Ok, Forall2_same_length_lookup_2.
  - rewrite length_seq, length_fmap. reflexivity.
  - intros i u brow Hu Hb. apply lookup_seq in Hu as [-> _].
    apply list_lookup_fmap_Some in Hb as (b & -> & Hmb).
    simpl.
    assert (getitem (h <$> m) i = Ok (h b)) as ->
      by (apply getitem_Ok; rewrite list_lookup_fmap, Hmb; reflexivity).
    reflexivity.
Qed.

Lemma lookups_in_range {A} (d : A) (l : list A) (idx : list nat) :
  Forall (fun i => i < length l) idx →
  Forall2 (fun i x => l !! i = Some x) idx ((fun i => default d (l !! i)) <$> idx).
Proof.
  induction 1 as [|i idx Hi _ IH]; simpl; constructor; [|exact IH].
  destruct (lookup_lt_is_Some_2 l i Hi) as [x Hx]. rewrite Hx. reflexivity.
Qed.

Section TopKFacts.
Context `{Numpy}.

Lemma masked_scores_shape self scores m :
  masked_scores self scores = Ok m →
  length m = num_user self ∧ Forall (fun r => length r = num_item self) m.
Proof.
  unfold masked_scores. intros Hm.
  apply bind_Ok in Hm as (m0 & Hre & Hput).
  unfold reshape in Hre. destruct (decide _) as [Hlen|]; [|discriminate].
  injection Hre as <-.
  destruct (chunks_shape _ _ _ Hlen) as [Hrows Hcols].
  destruct (edges (positive_graph self)) as [tu ti].
  apply index_put_spec in Hput as [Hlen' Hrows'].
  split; [congruence|]. apply Forall_lookup. intros u row' Hrow'.
  destruct (Hrows' _ _ Hrow') as (row & Hrow & Hl & _).
  rewrite Hl. eapply (proj1 (Forall_lookup _ _) Hcols); eauto.
Qed.

(** The masked matrix, cell by cell. *)
Lemma masked_scores_lookup self scores m u a c :
  masked_scores self scores = Ok m → m !! u = Some a → c < num_item self →
  a !! c = if decide ((u, c) ∈ user_item (positive_graph self)) then Some NINF
           else scores !! (u * num_item self + c).
Proof.
  unfold masked_scores. intros Hm Ha Hc.
  apply bind_Ok in Hm as (m0 & Hre & Hput).
  unfold reshape in Hre. destruct (decide _) as [Hlen|]; [|discriminate].
  injection Hre as <-.
  destruct (chunks_shape _ _ _ Hlen) as [Hrows Hcols].
  pose proof (edges_zip (positive_graph self)) as Hzip.
  destruct (edges (positive_graph self)) as [tu ti]. simpl in Hzip.
  rewrite Hzip in Hput.
  apply index_put_spec in Hput as [_ Hrows'].
  destruct (Hrows' _ _ Ha) as (row & Hrow & _ & Hcells).
  assert (length row = num_item self) as Hrl.
  { eapply (proj1 (Forall_lookup _ _) Hcols); eauto. }
  rewrite Hcells by lia. destruct (decide _); [reflexivity|].
  eapply chunks_lookup; eauto.
Qed.

Lemma masked_scores_total self scores :
  length scores = num_user self * num_item self →
  Forall (fun e => e.1 < num_user self ∧ e.2 < num_item self)
         (user_item (positive_graph self)) →
  ∃ m, masked_scores self scores = Ok m.
Proof.
  intros Hlen Hidx. unfold masked_scores, reshape.
  rewrite decide_True by exact Hlen.
  destruct (chunks_shape _ _ _ Hlen) as [Hrows Hcols].
  cbn. rewrite zip_fst_snd. eapply index_put_total; eauto.
Qed.

Lemma argpartition_length a k : k < length a → length (argpartition a k) = length a.
Proof.
  intros Hk. rewrite (Permutation_length (argpartition_perm a k Hk)).
  apply length_seq.
Qed.

Lemma argpartition_range a k c :
  k < length a → c ∈ argpartition a k ↔ c < length a.
Proof.
  intros Hk. rewrite (argpartition_perm a k Hk), elem_of_seq. lia.
Qed.

Lemma argsort_range a j : j ∈ argsort a ↔ j < length a.
Proof. rewrite (argsort_perm a), elem_of_seq. lia. Qed.

Lemma argsort_nil : argsort [] = [].
Proof. apply Permutation_nil_r. rewrite argsort_perm. reflexivity. Qed.

Lemma slice_from_nil {A} (start : Z) : slice_from start (@nil A) = [].
Proof. unfold slice_from. apply drop_nil. Qed.

(** [pred_list] on a matrix without elements: one empty row per user. *)
Lemma pred_list_rows_empty self scores m :
  masked_scores self scores = Ok m →
  num_user self * num_item self = 0 →
  pred_list self scores = Ok ((fun _ => []) <$> m).
Proof.
  intros Hm Hz. unfold pred_list, argpartition_rows.
  destruct (masked_scores_shape _ _ _ Hm) as [Hrows Hcols].
  rewrite Hm, bind_Ok_l, decide_True by (rewrite Hrows; exact Hz).
  rewrite bind_Ok_l, <- Hrows, <- list_fmap_compose.
  assert (m = (fun a : list score => a) <$> m) as Hid
    by (symmetry; apply (list_fmap_id m)).
  rewrite Hid at 1. clear Hid.
  rewrite (take_rows_fmap (fun a : list score => a) _ (fun _ => [])).
  2:{ apply Forall_forall. intros a _. simpl. rewrite slice_from_nil. constructor. }
  rewrite bind_Ok_l, <- list_fmap_compose, rows_reversed_fmap, bind_Ok_l.
  apply (take_rows_fmap _ _ (fun _ => [])).
  apply Forall_forall. intros a _. simpl. rewrite argsort_nil. constructor.
Qed.

(** [pred_list] row by row. *)
Lemma pred_list_rows self scores m k :
  masked_scores self scores = Ok m →
  num_user self * num_item self ≠ 0 →
  normalize_kth (num_item self) (- Z.of_nat (topk self)) = Ok k →
  pred_list self scores = Ok (ranked_row k <$> m).
Proof.
  intros Hm Hnz Hk. unfold pred_list, argpartition_rows.
  destruct (masked_scores_shape _ _ _ Hm) as [Hrows Hcols].
  rewrite Hm, bind_Ok_l, decide_False by (rewrite Hrows; exact Hnz).
  rewrite Hk, !bind_Ok_l.
  assert (k < num_item self) as Hklt.
  { apply normalize_kth_Ok in Hk. lia. }
  rewrite <- Hrows, <- list_fmap_compose.
  assert (m = (fun a : list score => a) <$> m) as Hid
    by (symmetry; apply (list_fmap_id m)).
  rewrite Hid at 1. clear Hid.
  rewrite (take_rows_fmap (fun a : list score => a) _
             (fun a => score_at a <$> drop k (argpartition a k))).
  2:{ eapply Forall_impl; [exact Hcols|]. intros a Ha. simpl in *.
      rewrite slice_from_drop with (k := k)
        by (rewrite argpartition_length, Ha by lia; exact Hk).
      apply lookups_in_range. apply Forall_forall. intros c Hc.
      apply (sublist_subseteq _ _ (sublist_drop _ _)) in Hc.
      apply argpartition_range in Hc; lia. }
  rewrite bind_Ok_l, <- list_fmap_compose, rows_reversed_fmap, bind_Ok_l.
  apply (take_rows_fmap _ _ (ranked_row k)).
  eapply Forall_impl; [exact Hcols|]. intros a Ha. simpl in *.
  rewrite slice_from_drop with (k := k)
    by (rewrite argpartition_length, Ha by lia; exact Hk).
  apply lookups_in_range. apply Forall_forall. intros j Hj.
  apply elem_of_reverse, argsort_range in Hj.
  rewrite length_fmap in Hj. exact Hj.
Qed.

Lemma pred_list_inv self scores pred :
  pred_list self scores = Ok pred →
  ∃ m, masked_scores self scores = Ok m
       ∧ length pred = num_user self
       ∧ ((num_user self * num_item self = 0 ∧ pred = (fun _ => []) <$> m)
          ∨ (num_user self * num_item self ≠ 0
             ∧ ∃ k, normalize_kth (num_item self) (- Z.of_nat (topk self)) = Ok k
                    ∧ pred = ranked_row k <$> m)).
Proof.
  intros Hp. pose proof Hp as Hp'. unfold pred_list in Hp'.
  apply bind_Ok in Hp' as (m & Hm & Hp').
  apply bind_Ok in Hp' as (ind & Hind & _).
  destruct (masked_scores_shape _ _ _ Hm) as [Hrows _].
  exists m. split; [exact Hm|].
  destruct (decide (num_user self * num_item self = 0)) as [Hz|Hnz].
  - rewrite (pred_list_rows_empty _ _ _ Hm Hz) in Hp. injection Hp as <-.
    rewrite length_fmap. auto.
  - unfold argpartition_rows in Hind.
    rewrite decide_False in Hind by (rewrite Hrows; exact Hnz).
    apply bind_Ok in Hind as (k & Hk & _).
    rewrite (pred_list_rows _ _ _ _ Hm Hnz Hk) in Hp. injection Hp as <-.
    rewrite length_fmap. split; [exact Hrows|]. right. eauto.
Qed.
End TopKFacts.

(** ** One row of the ranking *)

Section RankedRow.
Context `{Numpy}.
Variables (a : list score) (k : nat).
Hypothesis Hk : k < length a.

Lemma score_at_lookup c : c < length a → a !! c = Some (score_at a c).
Proof.
  intros Hc. unfold score_at.
  destruct (lookup_lt_is_Some_2 a c Hc) as [x ->]. reflexivity.
Qed.

Lemma ranked_row_perm : ranked_row k a ≡ₚ drop k (argpartition a k).
Proof.
  unfold ranked_row.
  set (ind := drop k (argpartition a k)).
  rewrite reverse_Permutation, argsort_perm, length_fmap.
  rewrite <- (lookups_fmap 0 ind _ ind (lookups_all ind)). reflexivity.
Qed.

Lemma ranked_row_length : length (ranked_row k a) = length a - k.
Proof.
  rewrite (Permutation_length ranked_row_perm), length_drop,
    argpartition_length by exact Hk. reflexivity.
Qed.

Lemma ranked_row_NoDup : NoDup (ranked_row k a).
Proof.
  rewrite ranked_row_perm.
  apply (sublist_NoDup _ (argpartition a k)); [|apply sublist_drop].
  rewrite (argpartition_perm a k Hk). apply NoDup_seq.
Qed.

Lemma ranked_row_range c : c ∈ ranked_row k a → c < length a.
Proof.
  rewrite ranked_row_perm. intros Hc.
  apply (sublist_subseteq _ _ (sublist_drop _ _)) in Hc.
  apply argpartition_range in Hc; [exact Hc | exact Hk].
Qed.

(** Entry [j] of the ranking, traced back through the reversed argsort. *)
Lemma ranked_row_lookup j c :
  ranked_row k a !! j = Some c →
  ∃ sj, argsort (score_at a <$> drop k (argpartition a k))
          !! (length (drop k (argpartition a k)) - S j) = Some sj
        ∧ (score_at a <$> drop k (argpartition a k)) !! sj = Some (score_at a c).
Proof.
  unfold ranked_row. intros Hj.
  apply list_lookup_fmap_Some in Hj as (sj & -> & Hsj).
  apply reverse_lookup_Some in Hsj as [Hsj Hlt].
  rewrite (Permutation_length (argsort_perm _)), length_seq, length_fmap in Hsj.
  exists sj. split; [exact Hsj|].
  assert (sj < length (drop k (argpartition a k))) as Hr.
  { rewrite <- (length_fmap (score_at a)). apply argsort_range.
    eapply list_elem_of_lookup_2; eauto. }
  destruct (lookup_lt_is_Some_2 _ _ Hr) as [c Hc].
  rewrite list_lookup_fmap, Hc. reflexivity.
Qed.

Lemma ranked_row_descending j j' c c' :
  j ≤ j' → ranked_row k a !! j = Some c → ranked_row k a !! j' = Some c' →
  score_le (score_at a c') (score_at a c).
Proof.
  intros Hle Hj Hj'.
  apply ranked_row_lookup in Hj as (sj & Hsj & Hx).
  apply ranked_row_lookup in Hj' as (sj' & Hsj' & Hx').
  refine (argsort_ascending _ _ _ _ _ _ _ _ Hsj' Hsj Hx' Hx). lia.
Qed.

(** No column left out scores above a column kept. *)
Lemma ranked_row_largest c c' :
  c ∈ ranked_row k a → c' < length a → c' ∉ ranked_row k a →
  score_le (score_at a c') (score_at a c).
Proof.
  rewrite ranked_row_perm. intros Hc Hc' Hnot.
  apply list_elem_of_lookup in Hc as [j Hj]. rewrite lookup_drop in Hj.
  assert (c < length a) as Hcr.
  { apply (argpartition_range a k c Hk). eapply list_elem_of_lookup_2; eauto. }
  apply (argpartition_range a k c' Hk) in Hc'.
  pose proof Hc' as Hc'r. apply (argpartition_range a k c' Hk) in Hc'r.
  apply list_elem_of_lookup in Hc' as [j' Hj'].
  assert (j' < k) as Hlow.
  { destruct (decide (j' < k)) as [|Hge]; [assumption|]. exfalso. apply Hnot.
    apply list_elem_of_lookup. exists (j' - k). rewrite lookup_drop.
    replace (k + (j' - k)) with j' by lia. exact Hj'. }
  destruct (lookup_lt_is_Some_2 (argpartition a k) k) as [pk Hpk].
  { rewrite argpartition_length by exact Hk. exact Hk. }
  assert (pk < length a) as Hpkr.
  { apply (argpartition_range a k pk Hk). eapply list_elem_of_lookup_2; eauto. }
  apply score_le_trans with (score_at a pk).
  - apply (proj1 (argpartition_pivot a k j' pk c' _ _ Hk Hpk Hj'
                    (score_at_lookup pk Hpkr) (score_at_lookup c' Hc'r))). lia.
  - apply (proj2 (argpartition_pivot a k (k + j) pk c _ _ Hk Hpk Hj
                    (score_at_lookup pk Hpkr) (score_at_lookup c Hcr))). lia.
Qed.
End RankedRow.

(** ** The reference implementation meets the numpy contract *)

Lemma StronglySorted_lookup {A} (R : relation A) l i j x y :
  StronglySorted R l → i < j → l !! i = Some x → l !! j = Some y → R x y.
Proof.
  intros Hs. revert i j. induction Hs as [|z l Hs IH Hall]; intros i j Hij Hi Hj.
  - discriminate.
  - destruct j as [|j]; [lia|]. simpl in Hj. destruct i as [|i]; simpl in Hi.
    + injection Hi as <-. eapply (proj1 (Forall_lookup _ _) Hall); eauto.
    + eapply (IH i j); eauto. lia.
Qed.

Lemma sort_argsort_perm a : sort_argsort a ≡ₚ seq 0 (length a).
Proof. apply merge_sort_Permutation. Qed.

Lemma sort_argsort_ascending a i j pi pj x y :
  i ≤ j → sort_argsort a !! i = Some pi → sort_argsort a !! j = Some pj →
  a !! pi = Some x → a !! pj = Some y → score_le x y.
Proof.
  intros Hij Hi Hj Hx Hy.
  destruct (decide (i = j)) as [->|Hne].
  - assert (pi = pj) as -> by congruence.
    assert (x = y) as -> by congruence. apply score_le_refl.
  - assert (key_le a pi pj) as Hle.
    { eapply (StronglySorted_lookup (key_le a) (sort_argsort a) i j); eauto; [|lia].
      apply StronglySorted_merge_sort.
      - intros p q r. unfold key_le. apply score_le_trans.
      - intros p q. unfold key_le. apply score_le_total. }
    unfold key_le, score_at in Hle. rewrite Hx, Hy in Hle. exact Hle.
Qed.

Lemma sort_argpartition_pivot a kth j pk pj x y :
  kth < length a →
  sort_argpartition a kth !! kth = Some pk → sort_argpartition a kth !! j = Some pj →
  a !! pk = Some x → a !! pj = Some y →
  (j ≤ kth → score_le y x) ∧ (kth ≤ j → score_le x y).
Proof.
  intros _ Hk Hj Hx Hy. unfold sort_argpartition in *.
  split; intros Hle; eapply sort_argsort_ascending; eauto.
Qed.

#[export] Instance numpy_by_sorting : Numpy := {|
  argsort := sort_argsort;
  argpartition := sort_argpartition;
  argsort_perm := sort_argsort_perm;
  argsort_ascending := sort_argsort_ascending;
  argpartition_perm := fun a kth _ => sort_argsort_perm a;
  argpartition_pivot := sort_argpartition_pivot
|}.

(** ** The top-K evaluator *)

Section Evaluator.
Context `{Numpy}.

(** A returned row is empty when there is no item; otherwise it is the
    ranking of the user's row of the masked matrix. *)
Lemma pred_list_row self scores pred u prow :
  pred_list self scores = Ok pred → pred !! u = Some prow →
  ∃ m a, masked_scores self scores = Ok m
         ∧ m !! u = Some a ∧ length a = num_item self
         ∧ ((num_item self = 0 ∧ prow = [])
            ∨ ∃ k, normalize_kth (num_item self) (- Z.of_nat (topk self)) = Ok k
                   ∧ k < length a ∧ prow = ranked_row k a).
Proof.
  intros Hp Hu. apply pred_list_inv in Hp as (m & Hm & Hlen & Hcase).
  destruct (masked_scores_shape _ _ _ Hm) as [Hrows Hcols].
  assert (u < num_user self) as Hur
    by (rewrite <- Hlen; eapply lookup_lt_Some; eauto).
  destruct Hcase as [[Hz ->]|(Hnz & k & Hk & ->)];
    apply list_lookup_fmap_Some in Hu as (a & -> & Ha);
    (assert (length a = num_item self) as Hla
       by (eapply (proj1 (Forall_lookup _ _) Hcols); eauto));
    exists m, a; (split; [exact Hm|]); (split; [exact Ha|]); (split; [exact Hla|]).
  - left. split; [nia | reflexivity].
  - right. exists k. split; [exact Hk|]. split; [|reflexivity].
    apply normalize_kth_Ok in Hk. lia.
Qed.

(** C1.  Whenever the evaluator returns, it returns one row per row of the
    masked matrix (one per user), and every row is a ranking of the user's
    masked scores: distinct columns, no column left out scoring above a
    column kept (they are the columns of the largest masked scores), in
    non-increasing order of masked score, so that the score at position
    [j] is at least the score at position [j + 1]; for a cutoff [0 < K],
    and at least one item, the row has [K] columns (with no item at all
    the rows are empty). *)
Theorem pred_list_descending self scores pred :
  pred_list self scores = Ok pred →
  ∃ m, masked_scores self scores = Ok m
       ∧ Forall2 (is_ranking (num_item self)) m pred
       ∧ (0 < topk self → 0 < num_item self →
          Forall (fun prow => length prow = topk self) pred).
Proof.
  intros Hp.
  destruct (pred_list_inv _ _ _ Hp) as (m & Hm & Hlen & _).
  destruct (masked_scores_shape _ _ _ Hm) as [Hrows _].
  exists m. split; [exact Hm|].
  split.
  2:{ intros HK HI. apply Forall_lookup. intros u prow Hu.
      destruct (pred_list_row _ _ _ _ _ Hp Hu)
        as (_ & a & _ & _ & Hla & [[Hz _]|(k' & Hk' & Hklt & ->)]); [lia|].
      rewrite ranked_row_length by exact Hklt.
      apply normalize_kth_Ok in Hk'. lia. }
  apply Forall2_same_length_lookup_2; [congruence|].
  intros u a0 prow Ha0 Hu.
  destruct (pred_list_row _ _ _ _ _ Hp Hu)
    as (m' & a & Hm' & Ha & Hla & Hcase).
  assert (m' = m) as -> by congruence.
  assert (a0 = a) as -> by congruence.
  destruct Hcase as [[_ ->]|(k' & Hk' & Hklt & ->)].
  { split; [constructor|].
    split; [intros c Hc; apply elem_of_nil in Hc; contradiction|].
    split; [intros c c' Hc; apply elem_of_nil in Hc; contradiction|].
    intros j c c' Hj. discriminate. }
  split; [apply ranked_row_NoDup, Hklt|].
  split; [intros c Hc; rewrite <- Hla; eapply ranked_row_range; eauto|].
  split.
  - intros c c' Hc Hc' Hnot. apply (ranked_row_largest a k' Hklt); auto. lia.
  - intros j c c' Hj HSj. apply (ranked_row_descending a k' Hklt j (S j)); auto.
Qed.

(** C8.  For a cutoff [0 < K <= I], a score vector of [U * I] entries and
    training edges inside the matrix, the evaluator returns, and returns
    one row of exactly [K] columns for each of the [U] users; nothing is
    asked of the number of eligible items. *)
Theorem pred_list_length self scores :
  0 < topk self → topk self ≤ num_item self →
  length scores = num_user self * num_item self →
  Forall (fun e => e.1 < num_user self ∧ e.2 < num_item self)
         (user_item (positive_graph self)) →
  ∃ pred, pred_list self scores = Ok pred ∧ length pred = num_user self
          ∧ Forall (fun row => length row = topk self) pred.
Proof.
  intros HK HKI Hlen Htrain.
  destruct (masked_scores_total _ _ Hlen Htrain) as [m Hm].
  assert (normalize_kth (num_item self) (- Z.of_nat (topk self))
          = Ok (num_item self - topk self)) as Hk
    by (apply normalize_kth_Ok; right; lia).
  destruct (masked_scores_shape _ _ _ Hm) as [Hrows Hcols].
  destruct (decide (num_user self * num_item self = 0)) as [Hz|Hnz].
  { assert (m = []) as -> by (apply nil_length_inv; nia).
    exists []. split; [apply (pred_list_rows_empty _ _ [] Hm Hz)|].
    split; [simpl; nia | constructor]. }
  exists (ranked_row (num_item self - topk self) <$> m).
  split; [apply pred_list_rows; assumption|].
  split; [rewrite length_fmap; exact Hrows|].
  apply Forall_fmap. eapply Forall_impl; [exact Hcols|].
  intros a Ha. simpl in *. rewrite ranked_row_length by lia. lia.
Qed.

(** With the cutoff at the number of items, every column is in every row,
    whatever numpy does inside the partition. *)
Lemma pred_list_full_cutoff self scores pred u prow c :
  topk self = num_item self →
  pred_list self scores = Ok pred → pred !! u = Some prow →
  c < num_item self → c ∈ prow.
Proof.
  intros HK Hp Hu Hc.
  destruct (pred_list_row _ _ _ _ _ Hp Hu)
    as (m & a & Hm & Ha & Hla & [[? _]|(k & Hk & Hklt & ->)]); [lia|].
  assert (k = 0) as ->
    by (apply normalize_kth_Ok in Hk; lia).
  rewrite (ranked_row_perm a 0), drop_0.
  apply argpartition_range; lia.
Qed.
End Evaluator.

(** The evaluator on the small flow. *)

Lemma pred_list_descending_witness :
  pred_list (small_flow 2) small_scores = Ok [[1; 2]; [2; 1]]
  ∧ ∃ m, masked_scores (small_flow 2) small_scores = Ok m
         ∧ Forall2 (is_ranking 3) m [[1; 2]; [2; 1]]
         ∧ (0 < 2 → 0 < 3 → Forall (fun prow => length prow = 2) [[1; 2]; [2; 1]]).
Proof.
  split; [vm_compute; reflexivity|].
  apply (pred_list_descending (small_flow 2) small_scores).
  vm_compute. reflexivity.
Defined.

Lemma pred_list_length_witness :
  length (eligible (small_flow 3) small_scores 0) = 2
  ∧ ∃ pred, pred_list (small_flow 3) small_scores = Ok pred ∧ length pred = 2
            ∧ Forall (fun row => length row = 3) pred.
Proof.
  split; [vm_compute; reflexivity|].
  apply (pred_list_length (small_flow 3) small_scores).
  - simpl. lia.
  - simpl. lia.
  - reflexivity.
  - repeat constructor; simpl; lia.
Defined.



(** ** The discounted gain *)

Section DCG.
Local Open Scope R_scope.

Lemma ln_2_pos : 0 < ln 2.
Proof. rewrite <- ln_1. apply ln_increasing; lra. Qed.

Lemma log2_2 : log2 2 = 1.
Proof. unfold log2. pose proof ln_2_pos. field. lra. Qed.

Lemma log2_pos x : 1 < x → 0 < log2 x.
Proof.
  intros Hx. unfold log2. apply Rdiv_lt_0_compat; [|apply ln_2_pos].
  rewrite <- ln_1. apply ln_increasing; lra.
Qed.

Lemma log2_increasing x y : 0 < x → x < y → log2 x < log2 y.
Proof.
  intros Hx Hxy. unfold log2. apply Rmult_lt_compat_r.
  - apply Rinv_0_lt_compat, ln_2_pos.
  - apply ln_increasing; assumption.
Qed.

Lemma log2_INR_pos (i : nat) : (2 <= i)%nat → 0 < log2 (INR i).
Proof. intros Hi. apply log2_pos, lt_1_INR. lia. Qed.

(** The two arrays of [compute_DCG], entry by entry. *)
Lemma dcg_terms (l : list nat) (s : nat) :
  zip_with Rdiv ((fun r => INR (2 ^ r) - 1) <$> l)
                ((fun i => log2 (INR i)) <$> seq (S s) (length l))
  = (fun i => (2 ^ nth (i - s) l 0%nat - 1) / log2 (INR (i + 1))) <$> seq s (length l).
Proof.
  revert s. induction l as [|r l IH]; intros s; [reflexivity|].
  cbn [length seq fmap list_fmap zip_with]. f_equal.
  - replace (s - s)%nat with 0%nat by lia. cbn [nth].
    rewrite pow_INR. replace (s + 1)%nat with (S s) by lia. reflexivity.
  - rewrite IH. apply list_fmap_ext. intros j i Hi.
    apply lookup_seq in Hi as [-> _].
    replace (S s + j - s)%nat with (S (S s + j - S s)) by lia. reflexivity.
Qed.

Lemma compute_DCG_nil : compute_DCG [] = 0.
Proof. reflexivity. Qed.

Lemma wrap_int64_small z : (- 2 ^ 63 <= z < 2 ^ 63)%Z → wrap_int64 z = z.
Proof.
  intros Hz. unfold wrap_int64. rewrite Z.mod_small by lia. lia.
Qed.

(** Below 63 the power fits and nothing wraps. *)
Lemma gain_small r : (r < 63)%nat → gain r = INR (2 ^ r) - 1.
Proof.
  intros Hr. unfold gain.
  assert (0 < 2 ^ Z.of_nat r <= 2 ^ 62)%Z as Hp.
  { split; [apply Z.pow_pos_nonneg; lia|]. apply Z.pow_le_mono_r; lia. }
  assert (2 ^ 62 < 2 ^ 63)%Z as H63 by (vm_compute; reflexivity).
  rewrite (wrap_int64_small (2 ^ Z.of_nat r)) by lia.
  rewrite wrap_int64_small by lia.
  rewrite minus_IZR, INR_IZR_INZ, Nat2Z.inj_pow. reflexivity.
Qed.

Lemma gain_0 : gain 0 = 0.
Proof. rewrite gain_small by lia. simpl. lra. Qed.

Lemma gain_1 : gain 1 = 1.
Proof. rewrite gain_small by lia. simpl. lra. Qed.

Lemma gain_fmap_small (l : list nat) :
  Forall (fun r => (r < 63)%nat) l → gain <$> l = (fun r => INR (2 ^ r) - 1) <$> l.
Proof.
  intros Hl. apply Forall_fmap_ext. eapply Forall_impl; [exact Hl|].
  intros r Hr. apply gain_small, Hr.
Qed.

Lemma compute_DCG_formula l :
  Forall (fun r => (r < 63)%nat) l → compute_DCG l = DCG_formula l.
Proof.
  intros Hl. unfold compute_DCG, DCG_formula.
  destruct (decide (length l ≠ 0%nat)) as [|Hz].
  - rewrite (gain_fmap_small l Hl), dcg_terms. reflexivity.
  - destruct l; [reflexivity | simpl in Hz; lia].
Qed.

(** From 64 on the power wraps to 0, and the gain is [-1]. *)
Lemma gain_64 : gain 64 = -1.
Proof.
  unfold gain.
  assert (wrap_int64 (wrap_int64 (2 ^ Z.of_nat 64) - 1) = (-1)%Z) as ->
    by (vm_compute; reflexivity).
  reflexivity.
Qed.
End DCG.

Section DCGValues.
Local Open Scope R_scope.

Lemma ln_3_pos : 0 < ln 3.
Proof. rewrite <- ln_1. apply ln_increasing; lra. Qed.

(** [3^306 < 2^485] and [2^84 < 3^53] bracket [ln 2 / ln 3]. *)
Lemma ln2_ln3_lower : 306 * ln 3 < 485 * ln 2.
Proof.
  replace 306 with (INR 306) by (rewrite INR_IZR_INZ; reflexivity).
  replace 485 with (INR 485) by (rewrite INR_IZR_INZ; reflexivity).
  rewrite <- !ln_pow by lra.
  apply ln_increasing; [apply pow_lt; lra|].
  rewrite !pow_IZR. apply IZR_lt. vm_compute. reflexivity.
Qed.

Lemma ln2_ln3_upper : 84 * ln 2 < 53 * ln 3.
Proof.
  replace 84 with (INR 84) by (rewrite INR_IZR_INZ; reflexivity).
  replace 53 with (INR 53) by (rewrite INR_IZR_INZ; reflexivity).
  rewrite <- !ln_pow by lra.
  apply ln_increasing; [apply pow_lt; lra|].
  rewrite !pow_IZR. apply IZR_lt. vm_compute. reflexivity.
Qed.

Lemma inv_log2_3_bounds : 0.6309 < 1 / log2 3 ∧ 1 / log2 3 < 0.6310.
Proof.
  pose proof ln_2_pos as H2. pose proof ln_3_pos as H3.
  pose proof ln2_ln3_lower as Hlo. pose proof ln2_ln3_upper as Hhi.
  unfold log2. replace (1 / (ln 3 / ln 2)) with (ln 2 / ln 3) by (field; lra).
  split.
  - apply Rmult_lt_reg_r with (ln 3); [exact H3|].
    unfold Rdiv. rewrite Rmult_assoc, Rinv_l by lra. lra.
  - apply Rmult_lt_reg_r with (ln 3); [exact H3|].
    unfold Rdiv. rewrite Rmult_assoc, Rinv_l by lra. lra.
Qed.

Lemma compute_DCG_110 :
  compute_DCG [1; 1; 0]%nat = 1 / log2 2 + 1 / log2 3 + 0 / log2 4.
Proof.
  unfold compute_DCG. rewrite decide_True by (simpl; lia).
  cbn [length seq fmap list_fmap zip_with Rsum foldr].
  rewrite gain_0, gain_1.
  replace (INR 2) with 2 by (simpl; lra).
  replace (INR 3) with 3 by (simpl; lra).
  replace (INR 4) with 4 by (simpl; lra).
  lra.
Qed.

(** A grade of 64 already gives a negative gain: [2^64] wraps to 0. *)
Example compute_DCG_wraps : compute_DCG [64%nat] = -1.
Proof.
  unfold compute_DCG. rewrite decide_True by (simpl; lia).
  cbn [length seq fmap list_fmap zip_with Rsum foldr].
  rewrite gain_64.
  replace (INR 2) with 2 by (simpl; lra).
  rewrite log2_2. lra.
Qed.

(** C5.  On a list of relevance grades below 63, as every binary hit
    list is, [compute_DCG] is the discounted sum of the specification,
    entry [i] (from one) weighing [(2^{r_i} - 1) / log2(i + 1)] (from 63 on
    the 64-bit power of numpy wraps); on [[1,1,0]] it is
    [1/log2(2) + 1/log2(3) + 0/log2(4)], which lies between 1.6309 and
    1.6310; on the empty list it is [0.0]. *)
Theorem compute_DCG_correct :
  (∀ r, Forall (fun x => (x < 63)%nat) r → compute_DCG r = DCG_formula r)
  ∧ compute_DCG [1; 1; 0]%nat = 1 / log2 2 + 1 / log2 3 + 0 / log2 4
  ∧ 1.6309 < compute_DCG [1; 1; 0]%nat < 1.6310
  ∧ compute_DCG [] = 0.
Proof.
  split; [exact compute_DCG_formula|].
  split; [exact compute_DCG_110|].
  split; [|exact compute_DCG_nil].
  rewrite compute_DCG_110, log2_2.
  pose proof inv_log2_3_bounds as [Hlo Hhi].
  unfold Rdiv at 3. rewrite Rmult_0_l. lra.
Qed.
End DCGValues.

(** ** Recall@K *)

Section Recall.
Local Open Scope R_scope.

Lemma recall_body_Ok pred g k s n u row :
  pred !! u = Some row →
  recall_body pred g k (s, n) u =
    if decide (heldout g u ≠ ∅)
    then Ok (s + recall_u pred g k u, (n + 1)%nat)
    else Ok (s, n).
Proof.
  intros Hrow. unfold recall_body, getitem. rewrite Hrow, bind_Ok_l.
  unfold recall_u, topK, heldout. rewrite Hrow. cbn [default].
  set (X := list_to_set (successors g u) : gset nat).
  set (Y := list_to_set (take k row) : gset nat).
  destruct (decide (size X ≠ 0%nat)) as [Hs|Hs].
  - rewrite decide_True by (intros HX; apply Hs; rewrite HX; apply size_empty).
    rewrite (comm_L (∩) Y X). reflexivity.
  - rewrite decide_False; [reflexivity|].
    intros Hne. apply Hs. intros Hz. apply Hne.
    apply leibniz_equiv, size_empty_inv. exact Hz.
Qed.

(** The loop adds [recall_u] and one to the counter for every user with
    held-out items, and nothing for the others. *)
Lemma recall_loop pred g k us s n :
  Forall (fun u => (u < length pred)%nat) us →
  for_each (recall_body pred g k) (s, n) us =
    Ok (s + Rsum (recall_u pred g k <$> filter (fun u => heldout g u ≠ ∅) us),
        (n + length (filter (fun u => heldout g u ≠ ∅) us))%nat).
Proof.
  intros Hus. revert s n.
  induction Hus as [|u us Hu _ IH]; intros s n.
  - simpl. f_equal. f_equal; [lra | lia].
  - cbn [for_each]. destruct (lookup_lt_is_Some_2 pred u Hu) as [row Hrow].
    rewrite (recall_body_Ok _ _ _ _ _ _ _ Hrow).
    destruct (decide (heldout g u ≠ ∅)) as [Hne|He].
    + rewrite bind_Ok_l, IH, filter_cons_True by exact Hne.
      cbn [fmap list_fmap length Rsum foldr]. f_equal. f_equal; [|lia].
      fold (Rsum (recall_u pred g k <$> filter (fun u => heldout g u ≠ ∅) us)). lra.
    + rewrite bind_Ok_l, IH, filter_cons_False by exact He. reflexivity.
Qed.

Lemma recall_at_k_cases pred g k :
  (num_users g ≤ length pred)%nat →
  recall_at_k pred g k =
    match evaluated_users g with
    | [] => Raise ZeroDivisionError
    | _ => Ok (mean_recall pred g k)
    end.
Proof.
  intros Hrows. unfold recall_at_k. rewrite recall_loop.
  2:{ apply Forall_forall. intros u Hu. apply elem_of_seq in Hu. lia. }
  rewrite bind_Ok_l. fold (evaluated_users g). unfold mean_recall.
  destruct (evaluated_users g) as [|u us] eqn:Hev.
  - reflexivity.
  - rewrite decide_False by (simpl; lia).
    f_equal. cbn [Nat.add]. rewrite Rplus_0_l. reflexivity.
Qed.

(** C6.  When the prediction list has a row for every user of the split
    and some user has held-out items, [recall_at_k] returns the arithmetic
    mean of [recall_u = |topK(u) ∩ heldout(u)| / |heldout(u)|] over the
    users with a non-empty held-out set; the other users enter neither the
    sum nor the divisor. *)
Theorem recall_at_k_mean pred g k :
  (num_users g ≤ length pred)%nat → evaluated_users g ≠ [] →
  recall_at_k pred g k =
    Ok (Rsum (recall_u pred g k <$> filter (fun u => heldout g u ≠ ∅)
                                          (range (num_users g)))
        / INR (length (filter (fun u => heldout g u ≠ ∅) (range (num_users g))))).
Proof.
  intros Hrows Hne. rewrite recall_at_k_cases by exact Hrows.
  destruct (evaluated_users g) eqn:Hev; [congruence|].
  unfold mean_recall. rewrite Hev. unfold evaluated_users in Hev.
  rewrite Hev. reflexivity.
Qed.
End Recall.

(** ** Discounted gains of hit lists *)

Section Discounts.
Local Open Scope R_scope.

Lemma compute_DCG_from l : compute_DCG l = dcg_from 2 l.
Proof.
  unfold compute_DCG, dcg_from. destruct (decide (length l ≠ 0%nat)) as [|Hz].
  - reflexivity.
  - destruct l; [reflexivity | simpl in Hz; lia].
Qed.

Lemma dcg_from_cons s r l :
  dcg_from s (r :: l) = gain r / log2 (INR s) + dcg_from (S s) l.
Proof. reflexivity. Qed.

Lemma dcg_from_nil s : dcg_from s [] = 0.
Proof. reflexivity. Qed.

Lemma disc_sum_S s n : disc_sum s (S n) = 1 / log2 (INR s) + disc_sum (S s) n.
Proof. reflexivity. Qed.

Lemma disc_sum_0 s : disc_sum s 0 = 0.
Proof. reflexivity. Qed.

Lemma disc_pos s : (2 <= s)%nat → 0 < 1 / log2 (INR s).
Proof.
  intros Hs. apply Rdiv_lt_0_compat; [lra | apply log2_INR_pos, Hs].
Qed.

Lemma disc_antitone s : (2 <= s)%nat → 1 / log2 (INR (S s)) <= 1 / log2 (INR s).
Proof.
  intros Hs. pose proof (log2_INR_pos s Hs) as Hp.
  assert (log2 (INR s) < log2 (INR (S s))) as Hlt.
  { apply log2_increasing; [apply lt_0_INR; lia | apply lt_INR; lia]. }
  unfold Rdiv. rewrite !Rmult_1_l.
  apply Rinv_le_contravar; lra.
Qed.

Lemma disc_sum_nonneg s n : (2 <= s)%nat → 0 <= disc_sum s n.
Proof.
  revert s. induction n as [|n IH]; intros s Hs.
  - rewrite disc_sum_0. lra.
  - rewrite disc_sum_S. pose proof (disc_pos s Hs). pose proof (IH (S s) ltac:(lia)). lra.
Qed.

Lemma disc_sum_pos s n : (2 <= s)%nat → (0 < n)%nat → 0 < disc_sum s n.
Proof.
  intros Hs Hn. destruct n as [|n]; [lia|]. rewrite disc_sum_S.
  pose proof (disc_pos s Hs). pose proof (disc_sum_nonneg (S s) n ltac:(lia)). lra.
Qed.

Lemma disc_sum_shift s n : (2 <= s)%nat → disc_sum (S s) n <= disc_sum s n.
Proof.
  revert s. induction n as [|n IH]; intros s Hs.
  - rewrite !disc_sum_0. lra.
  - rewrite !disc_sum_S. pose proof (disc_antitone s Hs). pose proof (IH (S s) ltac:(lia)). lra.
Qed.

Lemma disc_sum_mono s n n' : (2 <= s)%nat → (n <= n')%nat → disc_sum s n <= disc_sum s n'.
Proof.
  revert s n'. induction n as [|n IH]; intros s n' Hs Hn.
  - rewrite disc_sum_0. apply disc_sum_nonneg, Hs.
  - destruct n' as [|n']; [lia|]. rewrite !disc_sum_S.
    pose proof (IH (S s) n' ltac:(lia) ltac:(lia)). lra.
Qed.

(** Leading ones followed by zeros gain the leading discounts. *)
Lemma dcg_from_ideal s a b :
  dcg_from s (replicate a 1%nat ++ replicate b 0%nat) = disc_sum s a.
Proof.
  revert s. induction a as [|a IH]; intros s.
  - simpl. rewrite disc_sum_0. revert s. induction b as [|b IHb]; intros s.
    + apply dcg_from_nil.
    + cbn [replicate]. rewrite dcg_from_cons, gain_0, IHb. unfold Rdiv. lra.
  - cbn [replicate app]. rewrite dcg_from_cons, gain_1, disc_sum_S, IH. reflexivity.
Qed.

(** A 0/1 list gains at most the leading discounts, one per hit. *)
Lemma dcg_from_hits s (f : nat → bool) (l : list nat) :
  (2 <= s)%nat →
  dcg_from s ((fun i => if f i then 1%nat else 0%nat) <$> l)
  <= disc_sum s (length (filter (fun i => f i = true) l)).
Proof.
  revert s. induction l as [|i l IH]; intros s Hs.
  - simpl. rewrite dcg_from_nil, disc_sum_0. lra.
  - cbn [fmap list_fmap]. rewrite dcg_from_cons.
    fold (list_fmap nat nat (fun i => if f i then 1%nat else 0%nat) l).
    destruct (f i) eqn:Hf.
    + rewrite filter_cons_True by exact Hf. cbn [length].
      rewrite gain_1, disc_sum_S. pose proof (IH (S s) ltac:(lia)). lra.
    + rewrite filter_cons_False by congruence.
      rewrite gain_0. pose proof (IH (S s) ltac:(lia)).
      pose proof (disc_sum_shift s (length (filter (fun i => f i = true) l)) Hs).
      unfold Rdiv at 1. lra.
Qed.

Lemma dcg_from_nonneg s (f : nat → bool) (l : list nat) :
  (2 <= s)%nat → 0 <= dcg_from s ((fun i => if f i then 1%nat else 0%nat) <$> l).
Proof.
  revert s. induction l as [|i l IH]; intros s Hs.
  - simpl. rewrite dcg_from_nil. lra.
  - cbn [fmap list_fmap]. rewrite dcg_from_cons.
    fold (list_fmap nat nat (fun i => if f i then 1%nat else 0%nat) l).
    pose proof (IH (S s) ltac:(lia)). pose proof (disc_pos s Hs).
    destruct (f i); [rewrite gain_1 | rewrite gain_0; unfold Rdiv at 1]; lra.
Qed.

Lemma dcg_from_hit_pos s (f : nat → bool) (l : list nat) :
  (2 <= s)%nat → (∃ i, i ∈ l ∧ f i = true) →
  0 < dcg_from s ((fun i => if f i then 1%nat else 0%nat) <$> l).
Proof.
  intros Hs (i & Hi & Hf). revert s Hs.
  induction Hi as [i l|i j l _ IH]; intros s Hs.
  - cbn [fmap list_fmap]. rewrite dcg_from_cons, Hf, gain_1.
    fold (list_fmap nat nat (fun i => if f i then 1%nat else 0%nat) l).
    pose proof (dcg_from_nonneg (S s) f l ltac:(lia)). pose proof (disc_pos s Hs). lra.
  - cbn [fmap list_fmap]. rewrite dcg_from_cons.
    fold (list_fmap nat nat (fun i => if f i then 1%nat else 0%nat) l).
    pose proof (IH Hf (S s) ltac:(lia)). pose proof (disc_pos s Hs).
    destruct (f j); [rewrite gain_1 | rewrite gain_0; unfold Rdiv at 1]; lra.
Qed.
End Discounts.

(** ** NDCG@K, user by user *)

Section NDCGFacts.
Context `{PySet}.
Local Open Scope R_scope.

Lemma set_iter_length X : length (set_iter X) = size X.
Proof. rewrite (Permutation_length (set_iter_perm X)). reflexivity. Qed.

Lemma set_iter_elem X i : i ∈ set_iter X ↔ i ∈ X.
Proof. rewrite (set_iter_perm X). apply elem_of_elements. Qed.

Lemma set_iter_NoDup X : NoDup (set_iter X).
Proof. rewrite (set_iter_perm X). apply NoDup_elements. Qed.

Lemma hit_list_bool X (row_k : list nat) :
  hit_list_of X row_k =
  (fun i => if bool_decide (i ∈ row_k) then 1%nat else 0%nat) <$> set_iter X.
Proof.
  unfold hit_list_of. apply list_fmap_ext. intros _ i _.
  destruct (decide (i ∈ row_k)) as [Hin|Hout];
    [rewrite bool_decide_eq_true_2 by exact Hin
    |rewrite bool_decide_eq_false_2 by exact Hout]; reflexivity.
Qed.

Lemma hit_list_count X (row_k : list nat) :
  (length (filter (fun i => bool_decide (i ∈ row_k) = true) (set_iter X))
   <= size X `min` length row_k)%nat.
Proof.
  apply Nat.min_glb.
  - rewrite <- set_iter_length. apply length_filter.
  - apply submseteq_length, NoDup_submseteq.
    + apply NoDup_filter, set_iter_NoDup.
    + intros i Hi. apply list_elem_of_filter in Hi as [Hi _].
      apply bool_decide_eq_true in Hi. exact Hi.
Qed.

Lemma ideal_dcg GT k :
  compute_DCG (ideal_hit_list_of GT k) = disc_sum 2 (GT `min` k).
Proof.
  rewrite compute_DCG_from. unfold ideal_hit_list_of.
  destruct (decide (k ≤ GT)%nat) as [Hle|Hgt].
  - rewrite <- (app_nil_r (replicate k 1%nat)).
    change [] with (replicate 0 0%nat). rewrite dcg_from_ideal.
    f_equal. lia.
  - rewrite dcg_from_ideal. f_equal. lia.
Qed.

Lemma ideal_dcg_zero GT k :
  compute_DCG (ideal_hit_list_of GT k) = 0 ↔ GT = 0%nat ∨ k = 0%nat.
Proof.
  rewrite ideal_dcg. split.
  - intros Hz. destruct (decide (0 < GT `min` k)%nat) as [Hpos|]; [|lia].
    pose proof (disc_sum_pos 2 _ ltac:(lia) Hpos). lra.
  - intros Hz. replace (GT `min` k)%nat with 0%nat by lia. apply disc_sum_0.
Qed.

(** What one turn of the loop appends. *)
Lemma ndcg_body_Ok pred g k acc u row :
  pred !! u = Some row →
  ndcg_body pred g k acc u =
    if decide (heldout g u = ∅ ∨ k = 0%nat) then Ok acc
    else Ok (acc ++ [ndcg_u pred g k u]).
Proof.
  intros Hrow. unfold ndcg_body, getitem. rewrite Hrow, bind_Ok_l.
  unfold ndcg_u, heldout. rewrite Hrow. cbn [default].
  set (X := list_to_set (successors g u) : gset nat).
  destruct (Req_dec_T (compute_DCG (ideal_hit_list_of (size X) k)) 0) as [Hz|Hnz].
  - apply ideal_dcg_zero in Hz. rewrite decide_True; [reflexivity|].
    destruct Hz as [Hz|Hz]; [left | right; exact Hz].
    apply leibniz_equiv, size_empty_inv. exact Hz.
  - rewrite decide_False; [reflexivity|].
    intros Hz. apply Hnz, ideal_dcg_zero.
    destruct Hz as [Hz|Hz]; [left | right; exact Hz].
    rewrite Hz. apply size_empty.
Qed.

Lemma take_length_le {A} (l : list A) k : (length (take k l) <= k)%nat.
Proof. rewrite length_take. lia. Qed.

Section OneUser.
Variables (pred : list (list nat)) (g : graph) (k u : nat) (row : list nat).
Hypothesis Hrow : pred !! u = Some row.
Hypothesis Hk : (0 < k)%nat.
Hypothesis Hheld : heldout g u ≠ ∅.

Lemma heldout_size_pos : (0 < size (heldout g u))%nat.
Proof.
  destruct (decide (size (heldout g u) = 0%nat)) as [Hz|]; [|lia].
  exfalso. apply Hheld, leibniz_equiv, size_empty_inv. exact Hz.
Qed.

Lemma idcg_pos : 0 < compute_DCG (ideal_hit_list_of (size (heldout g u)) k).
Proof.
  rewrite ideal_dcg. apply disc_sum_pos; [lia|].
  pose proof heldout_size_pos. lia.
Qed.

Lemma ndcg_u_le_1 : ndcg_u pred g k u <= 1.
Proof.
  unfold ndcg_u. rewrite Hrow.
  change (default [] (Some row)) with row.
  pose proof idcg_pos as Hpos.
  apply Rmult_le_reg_r with (compute_DCG (ideal_hit_list_of (size (heldout g u)) k));
    [exact Hpos|].
  unfold Rdiv. rewrite Rmult_assoc, Rinv_l, Rmult_1_r, Rmult_1_l by lra.
  rewrite ideal_dcg, compute_DCG_from, hit_list_bool.
  eapply Rle_trans; [apply dcg_from_hits; lia|].
  apply disc_sum_mono; [lia|].
  pose proof (hit_list_count (heldout g u) (take k row)).
  pose proof (take_length_le row k). lia.
Qed.

Lemma ndcg_u_pos :
  (∃ i, i ∈ heldout g u ∧ i ∈ take k row) → 0 < ndcg_u pred g k u.
Proof.
  intros (i & Hi & Hin). unfold ndcg_u. rewrite Hrow.
  change (default [] (Some row)) with row.
  apply Rdiv_lt_0_compat; [|apply idcg_pos].
  rewrite compute_DCG_from, hit_list_bool.
  apply dcg_from_hit_pos; [lia|]. exists i. split.
  - apply set_iter_elem, Hi.
  - apply bool_decide_eq_true. exact Hin.
Qed.

Lemma ndcg_u_full :
  (∀ i, i ∈ heldout g u → i ∈ take k row) → ndcg_u pred g k u = 1.
Proof.
  intros Hall. unfold ndcg_u. rewrite Hrow.
  change (default [] (Some row)) with row.
  pose proof idcg_pos as Hpos.
  assert (compute_DCG (hit_list_of (heldout g u) (take k row))
          = compute_DCG (ideal_hit_list_of (size (heldout g u)) k)) as ->;
    [|field; lra].
  assert (size (heldout g u) <= k)%nat as Hsz.
  { rewrite <- set_iter_length.
    etransitivity; [|apply (take_length_le row k)].
    apply submseteq_length, NoDup_submseteq; [apply set_iter_NoDup|].
    intros i Hi. apply Hall, set_iter_elem, Hi. }
  rewrite ideal_dcg, compute_DCG_from, hit_list_bool.
  replace (size (heldout g u) `min` k)%nat with (length (set_iter (heldout g u)))
    by (rewrite set_iter_length; lia).
  assert (∀ l : list nat, (∀ i, i ∈ l → i ∈ take k row) →
            (fun i => if bool_decide (i ∈ take k row) then 1%nat else 0%nat) <$> l
            = replicate (length l) 1%nat ++ replicate 0 0%nat) as Hones.
  { induction l as [|i l IH]; intros Hl; [reflexivity|].
    cbn [fmap list_fmap length replicate app].
    rewrite bool_decide_eq_true_2 by (apply Hl; left). f_equal.
    apply IH. intros j Hj. apply Hl. right. exact Hj. }
  rewrite Hones by (intros i Hi; apply Hall, set_iter_elem, Hi).
  apply dcg_from_ideal.
Qed.
End OneUser.
End NDCGFacts.

(** ** NDCG@K over a split *)

Lemma for_each_ext {A S} (f g : S → A → result S) (s : S) (l : list A) :
  (∀ s x, x ∈ l → f s x = g s x) → for_each f s l = for_each g s l.
Proof.
  revert s. induction l as [|x l IH]; intros s Hfg; [reflexivity|].
  cbn [for_each]. rewrite (Hfg s x) by left.
  destruct (g s x) as [s'|e]; [|reflexivity].
  apply IH. intros s0 y Hy. apply Hfg. right. exact Hy.
Qed.

Section NDCGSplit.
Context `{PySet}.
Local Open Scope R_scope.

Lemma ndcg_loop pred g k us acc :
  Forall (fun u => (u < length pred)%nat) us →
  for_each (ndcg_body pred g k) acc us =
    Ok (acc ++ (ndcg_u pred g k
                  <$> filter (fun u => ¬ (heldout g u = ∅ ∨ k = 0%nat)) us)).
Proof.
  intros Hus. revert acc. induction Hus as [|u us Hu _ IH]; intros acc.
  - simpl. rewrite app_nil_r. reflexivity.
  - cbn [for_each]. destruct (lookup_lt_is_Some_2 pred u Hu) as [row Hrow].
    rewrite (ndcg_body_Ok _ _ _ _ _ _ Hrow).
    destruct (decide (heldout g u = ∅ ∨ k = 0%nat)) as [He|Hne].
    + rewrite bind_Ok_l, IH, filter_cons_False by tauto. reflexivity.
    + rewrite bind_Ok_l, IH, filter_cons_True by exact Hne.
      rewrite <- app_assoc. reflexivity.
Qed.

Lemma ndcg_at_k_mean pred g k :
  (0 < k)%nat → (num_users g ≤ length pred)%nat →
  ndcg_at_k pred g k = Ok (mean (ndcg_u pred g k <$> evaluated_users g)).
Proof.
  intros Hk Hrows. unfold ndcg_at_k. rewrite ndcg_loop.
  2:{ apply Forall_forall. intros u Hu. apply elem_of_seq in Hu. lia. }
  rewrite bind_Ok_l, app_nil_l. unfold evaluated_users. do 3 f_equal.
  apply list_filter_iff. intros u. split.
  - intros Hn He. apply Hn. left. exact He.
  - intros Hne [He|Hz]; [contradiction | lia].
Qed.

Lemma mean_ones {A} (f : A → R) (l : list A) :
  l ≠ [] → (∀ x, x ∈ l → f x = 1) → mean (f <$> l) = Num 1.
Proof.
  intros Hne Hall.
  assert (Rsum (f <$> l) = INR (length l)) as Hsum.
  { clear Hne. induction l as [|x l IH]; [reflexivity|].
    cbn [fmap list_fmap Rsum foldr length]. rewrite S_INR.
    fold (Rsum (f <$> l)). rewrite IH, (Hall x) by (try left; intros; apply Hall; right; assumption).
    lra. }
  destruct l as [|x l]; [congruence|].
  assert (mean (f <$> x :: l)
          = Num (Rsum (f <$> x :: l) / INR (length (f <$> x :: l)))) as ->
    by reflexivity.
  rewrite Hsum, length_fmap. f_equal.
  pose proof (pos_INR (length l)). cbn [length]. rewrite S_INR. field. lra.
Qed.

Lemma evaluated_users_heldout g u : u ∈ evaluated_users g → heldout g u ≠ ∅.
Proof. unfold evaluated_users. intros Hu. apply list_elem_of_filter in Hu. tauto. Qed.

Lemma evaluated_users_range g u : u ∈ evaluated_users g → (u < num_users g)%nat.
Proof.
  unfold evaluated_users. intros Hu.
  apply list_elem_of_filter in Hu as [_ Hu]. apply elem_of_seq in Hu. lia.
Qed.

Lemma ndcg_at_k_full pred g k :
  (0 < k)%nat → (num_users g ≤ length pred)%nat → evaluated_users g ≠ [] →
  (∀ u row i, pred !! u = Some row → i ∈ heldout g u → i ∈ take k row) →
  ndcg_at_k pred g k = Ok (Num 1).
Proof.
  intros Hk Hrows Hne Hall. rewrite ndcg_at_k_mean by assumption. f_equal.
  apply mean_ones; [exact Hne|]. intros u Hu.
  pose proof (evaluated_users_range _ _ Hu) as Hr.
  destruct (lookup_lt_is_Some_2 pred u) as [row Hrow]; [lia|].
  apply (ndcg_u_full pred g k u row Hrow Hk (evaluated_users_heldout _ _ Hu)).
  intros i Hi. eapply Hall; eauto.
Qed.

(** C2, amended.  For a cutoff [0 < K] and a prediction list with a row
    per user: [ndcg_at_k] is the mean, over the users with held-out items,
    of a per-user value which is 1.0 as soon as all of the user's held-out
    items are among the first [K] entries of the row, wherever they stand
    there, and which lies in (0, 1] whenever at least one held-out item is
    among them; so when every user's held-out items are all listed (ranked
    first or not) and some user has held-out items, NDCG@K is 1.0. *)
Theorem ndcg_at_k_hits pred g k :
  (0 < k)%nat → (num_users g ≤ length pred)%nat →
  ndcg_at_k pred g k = Ok (mean (ndcg_u pred g k <$> evaluated_users g))
  ∧ (∀ u row, pred !! u = Some row → heldout g u ≠ ∅ →
       ((∀ i, i ∈ heldout g u → i ∈ take k row) → ndcg_u pred g k u = 1)
       ∧ ((∃ i, i ∈ heldout g u ∧ i ∈ take k row) →
            0 < ndcg_u pred g k u ∧ ndcg_u pred g k u <= 1))
  ∧ (evaluated_users g ≠ [] →
     (∀ u row i, pred !! u = Some row → i ∈ heldout g u → i ∈ take k row) →
     ndcg_at_k pred g k = Ok (Num 1)).
Proof.
  intros Hk Hrows. split; [apply ndcg_at_k_mean; assumption|]. split.
  - intros u row Hrow Hheld. split.
    + apply (ndcg_u_full pred g k u row Hrow Hk Hheld).
    + intros Hhit. split.
      * apply (ndcg_u_pos pred g k u row Hrow Hk Hheld Hhit).
      * apply (ndcg_u_le_1 pred g k u row Hrow Hk Hheld).
  - apply ndcg_at_k_full; assumption.
Qed.

Lemma hit_list_members X (l l' : list nat) :
  (∀ i, i ∈ l ↔ i ∈ l') → hit_list_of X l = hit_list_of X l'.
Proof.
  intros Hll. unfold hit_list_of. apply list_fmap_ext. intros _ i _.
  destruct (decide (i ∈ l)) as [Hin|Hout].
  - rewrite decide_True by (apply Hll, Hin). reflexivity.
  - rewrite decide_False by (rewrite <- Hll; exact Hout). reflexivity.
Qed.

(** The loop body only looks at which items the first [k] entries hold. *)
Lemma ndcg_body_members pred pred' g k acc u :
  Forall2 (fun row row' => ∀ i, i ∈ take k row ↔ i ∈ take k row') pred pred' →
  ndcg_body pred g k acc u = ndcg_body pred' g k acc u.
Proof.
  intros Hrows. unfold ndcg_body, getitem.
  destruct (pred !! u) as [row|] eqn:Hrow.
  - destruct (Forall2_lookup_l _ _ _ _ _ Hrows Hrow) as (row' & Hrow' & Hmem).
    rewrite Hrow', !bind_Ok_l. rewrite (hit_list_members _ _ _ Hmem). reflexivity.
  - apply lookup_ge_None in Hrow. rewrite (Forall2_length _ _ _ Hrows) in Hrow.
    apply lookup_ge_None in Hrow. rewrite Hrow. reflexivity.
Qed.

(** C9.  If every row of two prediction lists has the same first [k]
    entries up to a permutation, [ndcg_at_k] returns the same on both, and
    so does every turn of its loop: the relevance vector is built from the
    held-out set by membership tests. *)
Theorem ndcg_at_k_permutation pred pred' g k :
  Forall2 (fun row row' => take k row ≡ₚ take k row') pred pred' →
  (∀ acc u, ndcg_body pred g k acc u = ndcg_body pred' g k acc u)
  ∧ ndcg_at_k pred g k = ndcg_at_k pred' g k.
Proof.
  intros Hperm.
  assert (Forall2 (fun row row' => ∀ i, i ∈ take k row ↔ i ∈ take k row') pred pred')
    as Hmem.
  { eapply Forall2_impl; [exact Hperm|]. intros row row' Hp i. rewrite Hp. tauto. }
  split.
  - intros acc u. apply ndcg_body_members, Hmem.
  - unfold ndcg_at_k. f_equal. apply for_each_ext.
    intros acc u _. apply ndcg_body_members, Hmem.
Qed.
End NDCGSplit.

(** The metrics on the small flow. *)

Lemma small_flow_evaluated_users : evaluated_users (test_hg (small_flow 2)) = [0].
Proof. vm_compute. reflexivity. Qed.

Lemma recall_at_k_mean_witness :
  evaluated_users (test_hg (small_flow 2)) ≠ []
  ∧ recall_at_k [[1; 2]; [2; 1]] (test_hg (small_flow 2)) 2 =
      Ok (Rdiv
            (Rsum (recall_u [[1; 2]; [2; 1]] (test_hg (small_flow 2)) 2
                     <$> filter (fun u => heldout (test_hg (small_flow 2)) u ≠ ∅)
                                (range (num_users (test_hg (small_flow 2))))))
            (INR (length (filter (fun u => heldout (test_hg (small_flow 2)) u ≠ ∅)
                                 (range (num_users (test_hg (small_flow 2)))))))).
Proof.
  assert (evaluated_users (test_hg (small_flow 2)) ≠ []) as Hne
    by (rewrite small_flow_evaluated_users; discriminate).
  split; [exact Hne|].
  apply (recall_at_k_mean [[1; 2]; [2; 1]] (test_hg (small_flow 2)) 2).
  - simpl. lia.
  - exact Hne.
Defined.

Lemma ndcg_at_k_hits_witness :
  ndcg_at_k [[1; 2]; [2; 1]] (test_hg (small_flow 2)) 2
  = Ok (mean (ndcg_u [[1; 2]; [2; 1]] (test_hg (small_flow 2)) 2
                <$> evaluated_users (test_hg (small_flow 2)))).
Proof.
  apply (ndcg_at_k_hits [[1; 2]; [2; 1]] (test_hg (small_flow 2)) 2).
  - lia.
  - simpl. lia.
Defined.

Lemma ndcg_at_k_permutation_witness :
  ndcg_at_k [[1; 2]; [2; 1]] (test_hg (small_flow 2)) 2
  = ndcg_at_k [[2; 1]; [1; 2]] (test_hg (small_flow 2)) 2.
Proof.
  apply (ndcg_at_k_permutation [[1; 2]; [2; 1]] [[2; 1]; [1; 2]]
           (test_hg (small_flow 2)) 2).
  repeat constructor; simpl; apply Permutation_swap.
Defined.

(** Held-out items [1] and [2] ranked last among three entries: the
    reverse of the optimal order, and still NDCG@3 = 1.0. *)
Lemma ndcg_reverse_order_is_one :
  successors two_heldout 0 = [1; 2]
  ∧ ndcg_at_k [[0; 2; 1]] two_heldout 3 = Ok (Num 1).
Proof.
  split; [reflexivity|].
  apply ndcg_at_k_full.
  - lia.
  - simpl. lia.
  - assert (evaluated_users two_heldout = [0]) as -> by (vm_compute; reflexivity).
    discriminate.
  - intros u row i Hrow Hi. destruct u as [|u]; [|discriminate].
    injection Hrow as <-. unfold heldout in Hi.
    apply elem_of_list_to_set in Hi.
    change (successors two_heldout 0) with [1; 2] in Hi.
    change (take 3 [0; 2; 1]) with [0; 2; 1].
    apply elem_of_cons in Hi as [->|Hi]; [do 2 right; left|].
    apply elem_of_cons in Hi as [->|Hi]; [right; left|].
    apply elem_of_nil in Hi. contradiction.
Qed.

(** C4.  On a split without any held-out edge (the validation graph of the
    small flow) [recall_at_k] raises [ZeroDivisionError], while [ndcg_at_k]
    returns the mean of an empty list, which is NaN, and raises nothing. *)
Theorem metrics_on_empty_split :
  evaluated_users (val_hg (small_flow 2)) = []
  ∧ recall_at_k [[1; 2]; [2; 1]] (val_hg (small_flow 2)) 2 = Raise ZeroDivisionError
  ∧ ndcg_at_k [[1; 2]; [2; 1]] (val_hg (small_flow 2)) 2 = Ok NaN.
Proof.
  assert (evaluated_users (val_hg (small_flow 2)) = []) as Hev
    by (vm_compute; reflexivity).
  split; [exact Hev|]. split.
  - rewrite recall_at_k_cases by (simpl; lia). rewrite Hev. reflexivity.
  - rewrite ndcg_at_k_mean by (simpl; lia). rewrite Hev. reflexivity.
Qed.

(** ** The ranking loss *)

Section Loss.
Local Open Scope R_scope.

Lemma repeat_interleave_length k (p : tensor) :
  length (repeat_interleave k p) = (k * length p)%nat.
Proof.
  unfold repeat_interleave. induction p as [|x p IH]; [simpl; lia|].
  rewrite bind_cons, length_app, length_replicate, IH. simpl. lia.
Qed.

(** Entry [j] of the repeated vector is entry [j / k] of the vector. *)
Lemma repeat_interleave_lookup k (p : tensor) j :
  (0 < k)%nat → repeat_interleave k p !! j = p !! (j / k)%nat.
Proof.
  intros Hk. unfold repeat_interleave. revert j.
  induction p as [|x p IH]; intros j.
  - reflexivity.
  - rewrite bind_cons. destruct (decide (j < k)%nat) as [Hlt|Hge].
    + rewrite lookup_app_l by (rewrite length_replicate; exact Hlt).
      rewrite Nat.div_small by exact Hlt. simpl.
      apply lookup_replicate_2, Hlt.
    + rewrite lookup_app_r by (rewrite length_replicate; lia).
      rewrite length_replicate, IH.
      replace j with ((j - k) + 1 * k)%nat at 2 by lia.
      rewrite Nat.div_add by lia.
      replace ((j - k) / k + 1)%nat with (S ((j - k) / k)) by lia. reflexivity.
Qed.

Lemma aligned_difference k (p n : tensor) :
  length n = (k * length p)%nat →
  zip_with Rminus (repeat_interleave k p) n
  = (fun j => nth (j / k) p 0 - nth j n 0) <$> seq 0 (length n).
Proof.
  intros Hlen. apply list_eq. intros j.
  rewrite lookup_zip_with, list_lookup_fmap.
  destruct (decide (j < length n)%nat) as [Hj|Hj].
  - assert (0 < k)%nat as Hk by (destruct k; [simpl in Hlen|]; lia).
    rewrite lookup_seq_lt by exact Hj. simpl.
    rewrite repeat_interleave_lookup by exact Hk.
    rewrite !nth_lookup.
    assert (j / k < length p)%nat as Hjk
      by (apply Nat.Div0.div_lt_upper_bound; lia).
    destruct (lookup_lt_is_Some_2 p _ Hjk) as [x ->].
    destruct (lookup_lt_is_Some_2 n _ Hj) as [y ->]. reflexivity.
  - rewrite lookup_seq_ge by lia.
    rewrite (proj2 (lookup_ge_None n j)) by lia.
    destruct (repeat_interleave k p !! j); reflexivity.
Qed.

Lemma Rsum_cons x l : Rsum (x :: l) = x + Rsum l.
Proof. reflexivity. Qed.

Lemma Rsum_opp {A} (f : A → R) (l : list A) :
  Rsum ((fun x => - f x) <$> l) = - Rsum (f <$> l).
Proof.
  induction l as [|x l IH]; [simpl; lra|].
  rewrite !fmap_cons, !Rsum_cons, IH. lra.
Qed.

Lemma mean_opp {A} (f : A → R) (l : list A) :
  fneg (mean (f <$> l)) = mean ((fun x => - f x) <$> l).
Proof.
  destruct l as [|x l]; [reflexivity|].
  assert (∀ g : A → R, mean (g <$> x :: l)
            = Num (Rsum (g <$> x :: l) / INR (length (g <$> x :: l)))) as Hm
    by reflexivity.
  rewrite !Hm, Rsum_opp, !length_fmap. cbn [fneg]. f_equal.
  unfold Rdiv. ring.
Qed.

Lemma fadd_comm a b : fadd a b = fadd b a.
Proof. destruct a, b; simpl; try reflexivity. f_equal. lra. Qed.

Lemma regularization_loss_sum emb : regularization_loss emb = reg_term emb.
Proof.
  unfold regularization_loss, reg_term. rewrite map_fold_foldr.
  induction (map_to_list emb) as [|[t e] l IH]; [reflexivity|].
  cbn [foldr fmap list_fmap uncurry snd]. rewrite IH. apply fadd_comm.
Qed.

(** C7.  With [p] and [n] the scores of the positive and of the negative
    graph, laid out so that [n] has [num_neg] entries per entry of [p],
    [loss_calculation] returns [mean(-log(sigmoid(p' - n))) + reg_weight * reg]:
    [p'] repeats each entry of [p] [num_neg] times, so that negative [j]
    faces positive [j / num_neg], and [reg] sums over the node types the
    mean of the squared entries of the type's embedding matrix. *)
Theorem loss_calculation_formula self pos neg emb p n :
  ScorePredictor pos emb = Ok p → ScorePredictor neg emb = Ok n →
  length n = (num_neg self * length p)%nat →
  loss_calculation self pos neg emb =
    Ok (fadd (bpr_term (num_neg self) p n)
             (fmul (Num (reg_weight self)) (reg_term emb))).
Proof.
  intros Hp Hn Hlen. unfold loss_calculation.
  rewrite Hp, bind_Ok_l, Hn, bind_Ok_l.
  unfold tensor_sub.
  rewrite decide_True by (rewrite repeat_interleave_length; lia).
  rewrite bind_Ok_l, (aligned_difference _ _ _ Hlen).
  rewrite mean_opp, <- list_fmap_compose, regularization_loss_sum.
  reflexivity.
Qed.
End Loss.

(** ** The regularization weight along a run *)

Section RegWeight.
Local Open Scope R_scope.

Lemma step_reg_weight s s' : step s s' → reg_weight s' = reg_weight s.
Proof. destruct 1; reflexivity. Qed.

Lemma reachable_reg_weight s : reachable s → reg_weight s = 0.
Proof.
  intros (n & u & i & m & Hrun).
  assert (∀ s0 s1, rtc step s0 s1 → reg_weight s1 = reg_weight s0) as Hinv.
  { induction 1 as [|s0 s1 s2 Hstep _ IH]; [reflexivity|].
    rewrite IH. apply step_reg_weight, Hstep. }
  rewrite (Hinv _ _ Hrun). reflexivity.
Qed.

Lemma reachable_init n u i m : reachable (init n u i m).
Proof. exists n, u, i, m. apply rtc_refl. Qed.

Lemma foldr_fadd_Num (l : list npfloat) :
  Forall (fun x => ∃ r, x = Num r) l → ∃ r, foldr fadd (Num 0) l = Num r.
Proof.
  induction 1 as [|x l [r ->] _ [r' IH]]; simpl; [eauto|].
  rewrite IH. simpl. eauto.
Qed.

Lemma foldr_fadd_NaN (l : list npfloat) : NaN ∈ l → foldr fadd (Num 0) l = NaN.
Proof.
  induction l as [|x l IH]; intros Hin.
  - apply elem_of_nil in Hin. contradiction.
  - apply elem_of_cons in Hin as [<-|Hin]; simpl; [reflexivity|].
    rewrite (IH Hin). destruct x; reflexivity.
Qed.

Lemma mean_Num (l : list R) : l ≠ [] → ∃ r, mean l = Num r.
Proof. destruct l; [congruence|]. simpl. eauto. Qed.

(** The regularization term is a number when every embedding matrix has
    an entry, and NaN as soon as one has none. *)
Lemma reg_term_Num emb :
  (∀ t e, emb !! t = Some e → concat e ≠ []) → ∃ r, reg_term emb = Num r.
Proof.
  intros Hall. unfold reg_term. apply foldr_fadd_Num.
  apply Forall_fmap, Forall_fmap, Forall_forall. intros [t e] Hte.
  apply elem_of_map_to_list in Hte. simpl. apply mean_Num.
  intros Hnil. apply fmap_nil_inv in Hnil. eapply Hall; eauto.
Qed.

Lemma reg_term_NaN emb t e :
  emb !! t = Some e → concat e = [] → reg_term emb = NaN.
Proof.
  intros Hte Hnil. unfold reg_term. apply foldr_fadd_NaN.
  apply list_elem_of_fmap. exists e. split.
  - rewrite Hnil. reflexivity.
  - apply list_elem_of_fmap. exists (t, e). split; [reflexivity|].
    apply elem_of_map_to_list, Hte.
Qed.

Lemma fadd_zero_weight b r : fadd b (fmul (Num 0) (Num r)) = b.
Proof. destruct b as [x|]; simpl; [|reflexivity]. f_equal. ring. Qed.

Lemma loss_calculation_bpr self pos neg emb :
  loss_calculation self pos neg emb =
    b ← pure_bpr self pos neg emb;
    Ok (fadd b (fmul (Num (reg_weight self)) (reg_term emb))).
Proof.
  unfold loss_calculation, pure_bpr.
  destruct (ScorePredictor pos emb) as [p|]; [|reflexivity].
  destruct (ScorePredictor neg emb) as [n|]; [|reflexivity].
  rewrite !bind_Ok_l.
  destruct (tensor_sub (repeat_interleave (num_neg self) p) n) as [d|]; [|reflexivity].
  rewrite !bind_Ok_l, mean_opp, regularization_loss_sum. reflexivity.
Qed.

(** C10, amended.  In every state a run can reach the regularization
    weight is 0, and whenever the regularization term is a finite number
    [y] (neither NaN, as with an embedding matrix without entries, nor an
    infinity, as with a square that overflows) [loss_calculation] returns
    what the BPR term [mean(-log(sigmoid(p - n)))] alone returns, errors
    included. *)
Theorem loss_is_pure_bpr self pos neg emb y :
  reachable self → regularization_loss emb = Num y →
  reg_weight self = 0
  ∧ loss_calculation self pos neg emb = pure_bpr self pos neg emb.
Proof.
  intros Hreach Hreg. pose proof (reachable_reg_weight _ Hreach) as Hw.
  split; [exact Hw|].
  rewrite loss_calculation_bpr, Hw, <- regularization_loss_sum, Hreg.
  destruct (pure_bpr self pos neg emb) as [b|]; [|reflexivity].
  rewrite bind_Ok_l, fadd_zero_weight. reflexivity.
Qed.
End RegWeight.

(** The loss on the small flow. *)

Lemma small_emb_entries t e : small_emb !! t = Some e → concat e ≠ [].
Proof.
  unfold small_emb. intros Ht.
  apply lookup_insert_Some in Ht as [[_ <-]|[_ Ht]]; [discriminate|].
  apply lookup_singleton_Some in Ht as [_ <-]. discriminate.
Qed.

Lemma small_flow_scores :
  ScorePredictor (positive_graph (small_flow 2)) small_emb
    = Ok [Rsum (zip_with Rmult [1%R] [1%R])]
  ∧ ScorePredictor (negative_graph (small_flow 2)) small_emb
    = Ok [Rsum (zip_with Rmult [1%R] [2%R])].
Proof. split; reflexivity. Qed.

Lemma loss_calculation_formula_witness :
  loss_calculation (small_flow 2) (positive_graph (small_flow 2))
                   (negative_graph (small_flow 2)) small_emb =
    Ok (fadd (bpr_term 1 [Rsum (zip_with Rmult [1%R] [1%R])]
                         [Rsum (zip_with Rmult [1%R] [2%R])])
             (fmul (Num 0) (reg_term small_emb))).
Proof.
  apply (loss_calculation_formula (small_flow 2) _ _ small_emb
           [Rsum (zip_with Rmult [1%R] [1%R])] [Rsum (zip_with Rmult [1%R] [2%R])]).
  - apply small_flow_scores.
  - apply small_flow_scores.
  - reflexivity.
Defined.

Lemma reachable_small_run : reachable small_run.
Proof. exists 1, 2, 3, []. apply rtc_once. constructor. Qed.

Lemma loss_is_pure_bpr_witness :
  ∃ y, regularization_loss small_emb = Num y
       ∧ reg_weight small_run = 0%R
       ∧ loss_calculation small_run (positive_graph small_run)
                          (negative_graph small_run) small_emb
         = pure_bpr small_run (positive_graph small_run)
                    (negative_graph small_run) small_emb.
Proof.
  destruct (reg_term_Num small_emb small_emb_entries) as [y Hy].
  rewrite <- regularization_loss_sum in Hy.
  exists y. split; [exact Hy|].
  apply (loss_is_pure_bpr small_run _ _ small_emb y).
  - apply reachable_small_run.
  - exact Hy.
Defined.

(** A node type without nodes turns the regularization term into NaN, and
    the weight 0 does not stop it: the loss is NaN where the BPR term is a
    number. *)
Lemma loss_with_empty_type_is_NaN :
  reachable (init 1 2 3 [])
  ∧ loss_calculation (init 1 2 3 []) (positive_graph (small_flow 2))
                     (negative_graph (small_flow 2)) emb_with_empty_type = Ok NaN
  ∧ ∃ v, pure_bpr (init 1 2 3 []) (positive_graph (small_flow 2))
                  (negative_graph (small_flow 2)) emb_with_empty_type = Ok (Num v).
Proof.
  split; [apply reachable_init|].
  assert (∃ v, pure_bpr (init 1 2 3 []) (positive_graph (small_flow 2))
                 (negative_graph (small_flow 2)) emb_with_empty_type = Ok (Num v))
    as [v Hv] by (eexists; reflexivity).
  split; [|eauto].
  rewrite loss_calculation_bpr, Hv, bind_Ok_l.
  rewrite (reg_term_NaN emb_with_empty_type "tag" []) by reflexivity.
  reflexivity.
Qed.

(** ** The scenario of the specification, end to end

    Two users, three items, training positive [(0, 0)], held-out test
    positive [(0, 1)], cutoff 2: item 1 ranks first for user 0 and
    Recall@2 is 1.0. *)

Example scenario_pred_list :
  pred_list (small_flow 2) small_scores = Ok [[1; 2]; [2; 1]].
Proof. vm_compute. reflexivity. Qed.

Example scenario_recall :
  recall_at_k [[1; 2]; [2; 1]] (test_hg (small_flow 2)) 2 = Ok 1%R.
Proof.
  rewrite recall_at_k_cases by (simpl; lia).
  rewrite small_flow_evaluated_users. f_equal.
  unfold mean_recall. rewrite small_flow_evaluated_users.
  cbn [fmap list_fmap Rsum foldr length]. unfold recall_u.
  assert (size (topK [[1; 2]; [2; 1]] 2 0 ∩ heldout (test_hg (small_flow 2)) 0) = 1)
    as -> by (vm_compute; reflexivity).
  assert (size (heldout (test_hg (small_flow 2)) 0) = 1)
    as -> by (vm_compute; reflexivity).
  simpl. field.
Qed.

(** Outside the contract [0 < K <= I]: the cutoff 0 keeps every column
    (the slice [-0:] is the whole row), and a cutoff above the number of
    items is refused by [argpartition]. *)
Example pred_list_cutoff_zero :
  pred_list (small_flow 0) small_scores = Ok [[1; 2; 0]; [2; 1; 0]].
Proof. vm_compute. reflexivity. Qed.

Example pred_list_cutoff_too_large :
  pred_list (small_flow 4) small_scores = Raise ValueError.
Proof. vm_compute. reflexivity. Qed.

(** Without an item, or without a user, the matrix has no element and the
    cutoff 20 is not checked: the rows come back empty. *)
Example pred_list_no_item :
  pred_list {| reg_weight := 0; topk := 20; num_neg := 1; num_user := 2; num_item := 0;
               positive_graph := Build_graph 2 0 []; negative_graph := Build_graph 2 0 [];
               val_hg := Build_graph 2 0 []; test_hg := Build_graph 2 0 [];
               params := [] |} []
  = Ok [[]; []].
Proof. vm_compute. reflexivity. Qed.

Example pred_list_no_user :
  pred_list {| reg_weight := 0; topk := 20; num_neg := 1; num_user := 0; num_item := 3;
               positive_graph := Build_graph 0 3 []; negative_graph := Build_graph 0 3 [];
               val_hg := Build_graph 0 3 []; test_hg := Build_graph 0 3 [];
               params := [] |} []
  = Ok [].
Proof. vm_compute. reflexivity. Qed.

(** * Further properties of the flow *)

(** ** The evaluation graph and the score matrix *)

Lemma bind_replicate_lookup {A} k (l : list A) j :
  0 < k → (l ≫= replicate k) !! j = l !! (j / k).
Proof.
  intros Hk. revert j. induction l as [|x l IH]; intros j; [reflexivity|].
  rewrite bind_cons. destruct (decide (j < k)) as [Hlt|Hge].
  - rewrite lookup_app_l by (rewrite length_replicate; exact Hlt).
    rewrite Nat.div_small by exact Hlt. simpl. apply lookup_replicate_2, Hlt.
  - rewrite lookup_app_r by (rewrite length_replicate; lia).
    rewrite length_replicate, IH.
    replace j with ((j - k) + 1 * k) at 2 by lia.
    rewrite Nat.div_add by lia.
    replace ((j - k) / k + 1) with (S ((j - k) / k)) by lia. reflexivity.
Qed.

Lemma bind_replicate_length {A} k (l : list A) :
  length (l ≫= replicate k) = k * length l.
Proof.
  induction l as [|x l IH]; [simpl; lia|].
  rewrite bind_cons, length_app, length_replicate, IH. simpl. lia.
Qed.

Lemma concat_replicate_length {A} n (t : list A) :
  length (concat (replicate n t)) = n * length t.
Proof.
  induction n as [|n IH]; [reflexivity|].
  cbn [replicate concat]. rewrite length_app, IH. lia.
Qed.

Lemma concat_replicate_lookup {A} n (t : list A) j :
  j < n * length t → concat (replicate n t) !! j = t !! (j mod length t).
Proof.
  revert j. induction n as [|n IH]; intros j Hj; [lia|].
  cbn [replicate concat]. destruct (decide (j < length t)) as [Hlt|Hge].
  - rewrite lookup_app_l by exact Hlt. rewrite Nat.mod_small by exact Hlt. reflexivity.
  - rewrite lookup_app_r by lia. rewrite IH by lia.
    replace j with ((j - length t) + 1 * length t) at 2 by lia.
    rewrite Nat.Div0.mod_add. reflexivity.
Qed.

Lemma eval_graph_row_major users items :
  user_item (eval_graph users items)
  = (fun j => (j / items, j mod items)) <$> seq 0 (users * items).
Proof.
  unfold eval_graph, index_repeat_interleave, index_repeat, arange. cbn [user_item].
  apply list_eq. intros j. rewrite lookup_zip_with, list_lookup_fmap.
  destruct (decide (j < users * items)) as [Hj|Hj].
  - assert (0 < items) as Hi by (destruct items; lia).
    rewrite lookup_seq_lt by exact Hj.
    rewrite bind_replicate_lookup by exact Hi.
    rewrite lookup_seq_lt by (apply Nat.Div0.div_lt_upper_bound; lia).
    rewrite concat_replicate_lookup by (rewrite length_seq; exact Hj).
    rewrite length_seq, lookup_seq_lt by (apply Nat.mod_upper_bound; lia).
    reflexivity.
  - rewrite lookup_seq_ge by lia.
    rewrite (proj2 (lookup_ge_None (seq 0 users ≫= replicate items) j));
      [reflexivity|].
    rewrite bind_replicate_length, length_seq. lia.
Qed.

(** X1.  The evaluation graph lists every (user, item) pair once, in
    row-major order: edge [j] joins user [j / I] and item [j mod I], for
    [j] from 0 to [U * I - 1]. *)
Theorem eval_graph_edges users items :
  user_item (eval_graph users items)
  = (fun j => (j / items, j mod items)) <$> seq 0 (users * items)
  ∧ NoDup (user_item (eval_graph users items))
  ∧ ∀ u i, (u, i) ∈ user_item (eval_graph users items) ↔ u < users ∧ i < items.
Proof.
  rewrite eval_graph_row_major. split; [reflexivity|]. split.
  - apply NoDup_fmap_2_strong; [|apply NoDup_seq].
    intros j j' Hj Hj' [= Hd Hm]. apply elem_of_seq in Hj, Hj'.
    assert (0 < items) by (destruct items; lia).
    rewrite (Nat.div_mod_eq j items), (Nat.div_mod_eq j' items). congruence.
  - intros u i. rewrite list_elem_of_fmap. split.
    + intros (j & [= -> ->] & Hj). apply elem_of_seq in Hj.
      assert (0 < items) by (destruct items; lia). split.
      * apply Nat.Div0.div_lt_upper_bound. lia.
      * apply Nat.mod_upper_bound. lia.
    + intros [Hu Hi]. exists (u * items + i). split.
      * rewrite Nat.div_add_l, Nat.div_small, Nat.add_0_r by lia.
        rewrite Nat.add_comm, Nat.Div0.mod_add, Nat.mod_small by lia. reflexivity.
      * apply elem_of_seq. nia.
Qed.

Lemma check_widths_same (xu xi : list (list R)) d :
  Forall (fun r => length r = d) xu → Forall (fun r => length r = d) xi →
  check_widths xu xi = Ok ().
Proof.
  intros Hu Hi. destruct Hu as [|hu xu Hhu _], Hi as [|hv xi Hhv _]; try reflexivity.
  simpl. rewrite decide_True by congruence. reflexivity.
Qed.

(** What [ScorePredictor] returns, edge by edge. *)
Lemma ScorePredictor_inv g emb s :
  ScorePredictor g emb = Ok s →
  ∃ xu xi, emb !! "user" = Some xu ∧ emb !! "item" = Some xi
    ∧ length xu = num_users g ∧ length xi = num_items g
    ∧ Forall2 (fun (e : nat * nat) x =>
                 ∃ hu hv, xu !! e.1 = Some hu ∧ xi !! e.2 = Some hv
                          ∧ length hu = length hv ∧ x = dot hu hv)
              (user_item g) s.
Proof.
  unfold ScorePredictor, dict_get, set_ndata. intros Hs.
  destruct (emb !! "user") as [xu|]; [|discriminate].
  rewrite bind_Ok_l in Hs.
  destruct (decide (length xu = num_users g)) as [Hlu|]; [|discriminate].
  rewrite bind_Ok_l in Hs.
  destruct (emb !! "item") as [xi|]; [|discriminate].
  rewrite bind_Ok_l in Hs.
  destruct (decide (length xi = num_items g)) as [Hli|]; [|discriminate].
  rewrite bind_Ok_l in Hs.
  destruct (check_widths xu xi) as [[]|]; [|discriminate].
  rewrite bind_Ok_l in Hs.
  exists xu, xi. repeat (split; [first [reflexivity | assumption]|]).
  apply mapM_Ok in Hs. eapply Forall2_impl; [exact Hs|].
  intros [u i] x Hx. simpl in *.
  apply bind_Ok in Hx as (hu & Hu & Hx). apply getitem_Ok in Hu.
  apply bind_Ok in Hx as (hv & Hv & Hx). apply getitem_Ok in Hv.
  unfold u_dot_v in Hx.
  destruct (decide (length hu = length hv)) as [Hd|]; [|discriminate].
  injection Hx as <-. exists hu, hv. auto.
Qed.

(** X2.  When [ScorePredictor] returns, it returns one score per
    [user-item] edge, in the order of the edges, each the dot product of
    the embedding rows of the edge's user and item; the embedding has a
    row per user and per item of the graph.  A graph without edges gets
    the empty vector. *)
Theorem ScorePredictor_per_edge g emb s :
  ScorePredictor g emb = Ok s →
  length s = length (user_item g)
  ∧ (user_item g = [] → s = [])
  ∧ ∃ xu xi, emb !! "user" = Some xu ∧ emb !! "item" = Some xi
      ∧ length xu = num_users g ∧ length xi = num_items g
      ∧ ∀ j u i, user_item g !! j = Some (u, i) →
          ∃ hu hv, xu !! u = Some hu ∧ xi !! i = Some hv
                   ∧ s !! j = Some (dot hu hv).
Proof.
  intros Hs.
  destruct (ScorePredictor_inv _ _ _ Hs) as (xu & xi & Hu & Hi & Hlu & Hli & Hall).
  pose proof (Forall2_length _ _ _ Hall) as Hlen.
  split; [symmetry; exact Hlen|]. split.
  - intros He. rewrite He in Hlen. destruct s; [reflexivity | discriminate].
  - exists xu, xi. repeat (split; [assumption|]).
    intros j u i Hj.
    destruct (Forall2_lookup_l _ _ _ _ _ Hall Hj) as (x & Hx & hu & hv & Hhu & Hhv & _ & ->).
    exists hu, hv. auto.
Qed.

(** X3.  With an embedding row of one common length for every user and
    every item, scoring the evaluation graph and reshaping to [(U, I)]
    succeeds, and the cell of user [u] and item [i] holds the dot product
    of their rows. *)
Theorem score_matrix_cells emb xu xi d :
  emb !! "user" = Some xu → emb !! "item" = Some xi →
  Forall (fun r => length r = d) xu → Forall (fun r => length r = d) xi →
  ∃ scores M,
    ScorePredictor (eval_graph (length xu) (length xi)) emb = Ok scores
    ∧ reshape scores (length xu) (length xi) = Ok M
    ∧ ∀ u i hu hv, xu !! u = Some hu → xi !! i = Some hv →
        M !! u ≫= (fun row => row !! i) = Some (dot hu hv).
Proof.
  intros Hu Hi Hdu Hdi.
  set (U := length xu). set (I := length xi).
  set (cell := fun j => dot (default [] (xu !! (j / I))) (default [] (xi !! (j mod I)))).
  exists (cell <$> seq 0 (U * I)), (chunks U I (cell <$> seq 0 (U * I))).
  assert (length (cell <$> seq 0 (U * I)) = U * I) as Hlen
    by (rewrite length_fmap, length_seq; reflexivity).
  split; [|split].
  - unfold ScorePredictor, dict_get, set_ndata. rewrite Hu, bind_Ok_l.
    rewrite decide_True by reflexivity. rewrite bind_Ok_l, Hi, bind_Ok_l.
    rewrite decide_True by reflexivity. rewrite bind_Ok_l.
    rewrite (check_widths_same xu xi d Hdu Hdi), bind_Ok_l.
    apply mapM_Ok. rewrite eval_graph_row_major.
    apply Forall2_fmap, Forall_Forall2_diag, Forall_forall.
    intros j Hj. apply elem_of_seq in Hj. simpl.
    assert (0 < I) as HI by (destruct I; lia).
    assert (j / I < U) as Hju by (apply Nat.Div0.div_lt_upper_bound; lia).
    assert (j mod I < I) as Hji by (apply Nat.mod_upper_bound; lia).
    destruct (lookup_lt_is_Some_2 xu _ Hju) as [hu Hhu].
    destruct (lookup_lt_is_Some_2 xi _ Hji) as [hv Hhv].
    rewrite (proj2 (getitem_Ok xu _ hu) Hhu), bind_Ok_l.
    rewrite (proj2 (getitem_Ok xi _ hv) Hhv), bind_Ok_l.
    unfold u_dot_v. rewrite decide_True.
    + unfold cell. rewrite Hhu, Hhv. reflexivity.
    + rewrite (proj1 (Forall_lookup _ _) Hdu _ _ Hhu).
      rewrite (proj1 (Forall_lookup _ _) Hdi _ _ Hhv). reflexivity.
  - unfold reshape. rewrite decide_True by exact Hlen. reflexivity.
  - intros u i hu hv Hhu Hhv.
    assert (u < U) as Hlu by (eapply lookup_lt_Some; eauto).
    assert (i < I) as Hli by (eapply lookup_lt_Some; eauto).
    destruct (chunks_shape U I _ Hlen) as [Hrows _].
    destruct (lookup_lt_is_Some_2 (chunks U I (cell <$> seq 0 (U * I))) u) as [row Hrow];
      [lia|].
    rewrite Hrow. simpl.
    rewrite (chunks_lookup _ _ _ _ _ _ Hrow Hli), list_lookup_fmap.
    rewrite lookup_seq_lt by nia. simpl. unfold cell. f_equal.
    rewrite Nat.div_add_l, Nat.div_small, Nat.add_0_r by lia.
    rewrite (Nat.add_comm (u * I) i), Nat.Div0.mod_add, Nat.mod_small by lia.
    rewrite Hhu, Hhv. reflexivity.
Qed.

Lemma ScorePredictor_per_edge_witness :
  length [Rsum (zip_with Rmult [1%R] [1%R])]
  = length (user_item (positive_graph (small_flow 2))).
Proof.
  apply (ScorePredictor_per_edge (positive_graph (small_flow 2)) small_emb
           [Rsum (zip_with Rmult [1%R] [1%R])]).
  reflexivity.
Defined.

Lemma score_matrix_cells_witness :
  ∃ scores M,
    ScorePredictor (eval_graph 2 3) small_emb = Ok scores
    ∧ reshape scores 2 3 = Ok M
    ∧ ∀ u i hu hv, [[1%R]; [1%R]] !! u = Some hu →
        [[1%R]; [0%R]; [2%R]] !! i = Some hv →
        M !! u ≫= (fun row => row !! i) = Some (dot hu hv).
Proof.
  apply (score_matrix_cells small_emb [[1%R]; [1%R]] [[1%R]; [0%R]; [2%R]] 1).
  - reflexivity.
  - reflexivity.
  - repeat constructor.
  - repeat constructor.
Defined.

(** ** Sign and composition of the loss *)

Section LossSign.
Local Open Scope R_scope.

Lemma sigmoid_bounds v : 0 < sigmoid v < 1.
Proof.
  unfold sigmoid. pose proof (exp_pos (- v)) as He. split.
  - apply Rdiv_lt_0_compat; lra.
  - apply Rmult_lt_reg_r with (1 + exp (- v)); [lra|].
    unfold Rdiv. rewrite Rmult_assoc, Rinv_l by lra. lra.
Qed.

Lemma neg_log_sigmoid_pos v : 0 < - ln (sigmoid v).
Proof.
  destruct (sigmoid_bounds v) as [H0 H1].
  pose proof (ln_increasing _ _ H0 H1) as Hln. rewrite ln_1 in Hln. lra.
Qed.

Lemma Rsum_nonneg (l : list R) : Forall (fun x => 0 <= x) l → 0 <= Rsum l.
Proof.
  induction 1 as [|x l Hx _ IH]; [simpl; lra|]. rewrite Rsum_cons. lra.
Qed.

Lemma Rsum_pos (l : list R) : l ≠ [] → Forall (fun x => 0 < x) l → 0 < Rsum l.
Proof.
  intros Hne Hall. destruct Hall as [|x l Hx Hall]; [congruence|].
  rewrite Rsum_cons.
  assert (0 <= Rsum l) by (apply Rsum_nonneg; eapply Forall_impl; [exact Hall|];
                           simpl; intros; lra).
  lra.
Qed.

Lemma mean_inv (l : list R) m :
  mean l = Num m → l ≠ [] ∧ m = Rsum l / INR (length l) ∧ 0 < INR (length l).
Proof.
  destruct l as [|x l]; [discriminate|]. intros [= <-].
  split; [discriminate|]. split; [reflexivity|].
  apply lt_0_INR. simpl. lia.
Qed.

Lemma mean_pos (l : list R) m : Forall (fun x => 0 < x) l → mean l = Num m → 0 < m.
Proof.
  intros Hall Hm. apply mean_inv in Hm as (Hne & -> & Hlen).
  apply Rdiv_lt_0_compat; [apply Rsum_pos; assumption | exact Hlen].
Qed.

Lemma mean_nonneg (l : list R) m : Forall (fun x => 0 <= x) l → mean l = Num m → 0 <= m.
Proof.
  intros Hall Hm. apply mean_inv in Hm as (Hne & -> & Hlen).
  apply Rmult_le_pos; [apply Rsum_nonneg, Hall|].
  apply Rlt_le, Rinv_0_lt_compat, Hlen.
Qed.

Lemma mean_squares_nonneg (e : list (list R)) m :
  mean ((fun v => v ^ 2) <$> concat e) = Num m → 0 <= m.
Proof.
  apply mean_nonneg, Forall_fmap, Forall_forall. intros v _. simpl. nra.
Qed.

Lemma fadd_Num_inv a b r : fadd a b = Num r → ∃ x y, a = Num x ∧ b = Num y ∧ r = x + y.
Proof. destruct a, b; simpl; intros [= <-]. eauto. Qed.

Lemma reg_term_nonneg emb y : reg_term emb = Num y → 0 <= y.
Proof.
  unfold reg_term. generalize ((map_to_list emb).*2). intros l. revert y.
  induction l as [|e l IH]; intros y; cbn [fmap list_fmap foldr].
  - intros [= <-]. lra.
  - intros Hy. apply fadd_Num_inv in Hy as (a & b & Ha & Hb & ->).
    pose proof (mean_squares_nonneg _ _ Ha). pose proof (IH _ Hb). lra.
Qed.

Lemma pure_bpr_nonneg self pos neg emb b :
  pure_bpr self pos neg emb = Ok (Num b) → 0 <= b.
Proof.
  unfold pure_bpr. intros Hb.
  apply bind_Ok in Hb as (p & _ & Hb). apply bind_Ok in Hb as (n & _ & Hb).
  apply bind_Ok in Hb as (d & _ & [= Hb]).
  eapply mean_nonneg; [|exact Hb].
  apply Forall_fmap, Forall_forall. intros v _. apply Rlt_le, neg_log_sigmoid_pos.
Qed.

(** X4.  For a regularization weight that is not negative (it is 0 along
    every run), a loss that is a number is not negative: no term
    [-log(sigmoid(.))] of the BPR mean is negative (in float32 a term is
    exactly 0 once the sigmoid saturates at 1) and the regularization term
    is a mean of squares. *)
Theorem loss_calculation_positive self pos neg emb r :
  0 <= reg_weight self →
  loss_calculation self pos neg emb = Ok (Num r) → 0 <= r.
Proof.
  intros Hw Hr. rewrite loss_calculation_bpr in Hr.
  apply bind_Ok in Hr as (b & Hb & [= Hr]).
  apply fadd_Num_inv in Hr as (x & y & -> & Hreg & ->).
  destruct (reg_term emb) as [z|] eqn:Hz; [|discriminate].
  injection Hreg as <-.
  pose proof (pure_bpr_nonneg _ _ _ _ _ Hb). pose proof (reg_term_nonneg _ _ Hz).
  nra.
Qed.

Lemma fadd_swap y a b : fadd (fadd y a) b = fadd (fadd y b) a.
Proof. destruct y, a, b; simpl; try reflexivity. f_equal. lra. Qed.

(** X5.  The regularization term adds up over the node types: a node type
    new to the embedding adds the mean of its squared entries.  The term
    is NaN exactly when some node type has an embedding without entries,
    and is never negative otherwise. *)
Theorem regularization_loss_insert :
  (∀ emb t e, emb !! t = None →
     regularization_loss (<[t := e]> emb)
     = fadd (regularization_loss emb) (mean ((fun v => v ^ 2) <$> concat e)))
  ∧ (∀ emb, regularization_loss emb = NaN
            ↔ ∃ t e, emb !! t = Some e ∧ concat e = [])
  ∧ (∀ emb y, regularization_loss emb = Num y → 0 <= y)
  ∧ regularization_loss ∅ = Num 0.
Proof.
  split; [|split; [|split]].
  - intros emb t e Ht. unfold regularization_loss.
    rewrite map_fold_insert_L; [reflexivity | | exact Ht].
    intros j1 j2 z1 z2 y _ _ _. apply fadd_swap.
  - intros emb. rewrite regularization_loss_sum. split.
    + intros HNaN.
      destruct (decide (map_Forall (fun _ (e : list (list R)) =>
                                      length (concat e) ≠ 0%nat) emb)) as [Hall|Hex].
      * destruct (reg_term_Num emb) as [r Hr]; [|congruence].
        intros t e Hte Hnil. apply (Hall t e Hte). rewrite Hnil. reflexivity.
      * apply map_not_Forall in Hex; [|apply _].
        destruct Hex as (t & e & Hte & Hlen). exists t, e. split; [exact Hte|].
        destruct (concat e); [reflexivity|]. exfalso. apply Hlen. discriminate.
    + intros (t & e & Hte & Hnil). eapply reg_term_NaN; eauto.
  - intros emb y. rewrite regularization_loss_sum. apply reg_term_nonneg.
  - reflexivity.
Qed.
End LossSign.

Lemma loss_calculation_positive_witness :
  ∃ r, loss_calculation (small_flow 2) (positive_graph (small_flow 2))
                        (negative_graph (small_flow 2)) small_emb = Ok (Num r)
       ∧ (0 <= r)%R.
Proof.
  eexists. split; [reflexivity|].
  apply (loss_calculation_positive (small_flow 2) (positive_graph (small_flow 2))
           (negative_graph (small_flow 2)) small_emb).
  - simpl. lra.
  - reflexivity.
Defined.

(** ** Range and edge behaviour of the metrics *)

Lemma for_each_rows {S} (body : S → nat → result S) (pred : list (list nat)) :
  (∀ s u, pred !! u = None → body s u = Raise IndexError) →
  (∀ s u, is_Some (pred !! u) → ∃ s', body s u = Ok s') →
  ∀ us s,
    (for_each body s us = Raise IndexError ∧ Exists (fun u => length pred ≤ u) us)
    ∨ (∃ s', for_each body s us = Ok s' ∧ Forall (fun u => u < length pred) us).
Proof.
  intros Hnone Hsome. induction us as [|u us IH]; intros s.
  - right. exists s. split; [reflexivity | constructor].
  - cbn [for_each]. destruct (pred !! u) as [row|] eqn:Hrow.
    + destruct (Hsome s u) as [s' Hs']; [rewrite Hrow; eauto|].
      rewrite Hs', bind_Ok_l. apply lookup_lt_Some in Hrow.
      destruct (IH s') as [[He Hex]|(s'' & Hok & Hall)].
      * left. split; [exact He | right; exact Hex].
      * right. exists s''. split; [exact Hok | constructor; assumption].
    + left. rewrite (Hnone s u Hrow). split; [reflexivity|].
      left. apply lookup_ge_None, Hrow.
Qed.

Lemma range_rows n (pred : list (list nat)) :
  Forall (fun u => u < length pred) (range n) ↔ n ≤ length pred.
Proof.
  unfold range. rewrite Forall_forall. split.
  - intros Hall. destruct n as [|n]; [lia|].
    specialize (Hall n). rewrite elem_of_seq in Hall. lia.
  - intros Hn u Hu. apply elem_of_seq in Hu. lia.
Qed.

Section MetricRange.
Context `{PySet}.
Local Open Scope R_scope.

Lemma recall_body_rows pred g k :
  (∀ s u, pred !! u = None → recall_body pred g k s u = Raise IndexError)
  ∧ (∀ s u, is_Some (pred !! u) → ∃ s', recall_body pred g k s u = Ok s').
Proof.
  split.
  - intros [s n] u Hu. unfold recall_body, getitem. rewrite Hu. reflexivity.
  - intros [s n] u [row Hu]. rewrite (recall_body_Ok _ _ _ _ _ _ _ Hu).
    destruct (decide _); eauto.
Qed.

Lemma ndcg_body_rows pred g k :
  (∀ s u, pred !! u = None → ndcg_body pred g k s u = Raise IndexError)
  ∧ (∀ s u, is_Some (pred !! u) → ∃ s', ndcg_body pred g k s u = Ok s').
Proof.
  split.
  - intros s u Hu. unfold ndcg_body, getitem. rewrite Hu. reflexivity.
  - intros s u [row Hu]. rewrite (ndcg_body_Ok _ _ _ _ _ _ Hu).
    destruct (decide _); eauto.
Qed.

Lemma recall_at_k_Ok_rows pred g k r :
  recall_at_k pred g k = Ok r → (num_users g ≤ length pred)%nat.
Proof.
  unfold recall_at_k. intros Hr. apply bind_Ok in Hr as ([s n] & Hloop & _).
  destruct (recall_body_rows pred g k) as [Hnone Hsome].
  destruct (for_each_rows _ pred Hnone Hsome (range (num_users g)) (0, 0%nat))
    as [[He _]|(s' & _ & Hall)]; [congruence|].
  apply range_rows, Hall.
Qed.

Lemma ndcg_at_k_Ok_rows pred g k v :
  ndcg_at_k pred g k = Ok v → (num_users g ≤ length pred)%nat.
Proof.
  unfold ndcg_at_k. intros Hr. apply bind_Ok in Hr as (l & Hloop & _).
  destruct (ndcg_body_rows pred g k) as [Hnone Hsome].
  destruct (for_each_rows _ pred Hnone Hsome (range (num_users g)) [])
    as [[He _]|(s' & _ & Hall)]; [congruence|].
  apply range_rows, Hall.
Qed.

(** X6.  A prediction list with fewer rows than the split has users makes
    both metrics raise [IndexError], whatever the held-out sets are. *)
Theorem metrics_missing_rows pred g k :
  (length pred < num_users g)%nat →
  recall_at_k pred g k = Raise IndexError ∧ ndcg_at_k pred g k = Raise IndexError.
Proof.
  intros Hlt.
  assert (¬ Forall (fun u => (u < length pred)%nat) (range (num_users g))) as Hnot
    by (rewrite range_rows; lia).
  split.
  - unfold recall_at_k.
    destruct (recall_body_rows pred g k) as [Hnone Hsome].
    destruct (for_each_rows _ pred Hnone Hsome (range (num_users g)) (0, 0%nat))
      as [[He _]|(s' & _ & Hall)]; [|contradiction].
    rewrite He. reflexivity.
  - unfold ndcg_at_k.
    destruct (ndcg_body_rows pred g k) as [Hnone Hsome].
    destruct (for_each_rows _ pred Hnone Hsome (range (num_users g)) [])
      as [[He _]|(s' & _ & Hall)]; [|contradiction].
    rewrite He. reflexivity.
Qed.

Lemma mean_bounds (l : list R) a b m :
  Forall (fun x => a <= x <= b) l → mean l = Num m → a <= m <= b.
Proof.
  intros Hall Hm. apply mean_inv in Hm as (_ & -> & Hlen).
  assert (INR (length l) * a <= Rsum l <= INR (length l) * b) as Hsum.
  { clear Hlen. induction Hall as [|x l Hx _ IH]; [simpl; lra|].
    rewrite Rsum_cons. cbn [length]. rewrite S_INR. lra. }
  split.
  - apply Rmult_le_reg_r with (INR (length l)); [exact Hlen|].
    unfold Rdiv. rewrite Rmult_assoc, Rinv_l by lra. lra.
  - apply Rmult_le_reg_r with (INR (length l)); [exact Hlen|].
    unfold Rdiv. rewrite Rmult_assoc, Rinv_l by lra. lra.
Qed.

Lemma heldout_size_INR g u : heldout g u ≠ ∅ → 0 < INR (size (heldout g u)).
Proof.
  intros Hne. apply lt_0_INR.
  destruct (decide (size (heldout g u) = 0%nat)) as [Hz|]; [|lia].
  exfalso. apply Hne, leibniz_equiv, size_empty_inv. exact Hz.
Qed.

Lemma recall_u_bounds pred g k u : heldout g u ≠ ∅ → 0 <= recall_u pred g k u <= 1.
Proof.
  intros Hne. unfold recall_u. pose proof (heldout_size_INR g u Hne) as Hpos.
  assert (INR (size (topK pred k u ∩ heldout g u)) <= INR (size (heldout g u))) as Hle.
  { apply le_INR, subseteq_size, intersection_subseteq_r. }
  pose proof (pos_INR (size (topK pred k u ∩ heldout g u))) as H0. split.
  - apply Rmult_le_pos; [exact H0 | apply Rlt_le, Rinv_0_lt_compat, Hpos].
  - apply Rmult_le_reg_r with (INR (size (heldout g u))); [exact Hpos|].
    unfold Rdiv. rewrite Rmult_assoc, Rinv_l by lra. lra.
Qed.

Lemma recall_at_k_as_mean pred g k r :
  recall_at_k pred g k = Ok r →
  evaluated_users g ≠ [] ∧ mean (recall_u pred g k <$> evaluated_users g) = Num r.
Proof.
  intros Hr. pose proof (recall_at_k_Ok_rows _ _ _ _ Hr) as Hrows.
  rewrite recall_at_k_cases in Hr by exact Hrows.
  destruct (evaluated_users g) as [|u us] eqn:Hev; [discriminate|].
  split; [discriminate|]. injection Hr as <-.
  unfold mean_recall. rewrite Hev.
  rewrite <- (length_fmap (recall_u pred g k) (u :: us)). reflexivity.
Qed.

(** X7.  Whatever [recall_at_k] returns lies between 0 and 1. *)
Theorem recall_at_k_range pred g k r :
  recall_at_k pred g k = Ok r → 0 <= r <= 1.
Proof.
  intros Hr. apply recall_at_k_as_mean in Hr as [_ Hm].
  eapply mean_bounds; [|exact Hm].
  apply Forall_fmap, Forall_forall. intros u Hu. simpl.
  apply recall_u_bounds. unfold evaluated_users in Hu.
  apply list_elem_of_filter in Hu. tauto.
Qed.

Lemma Rsum_le {A} (f f' : A → R) (l : list A) :
  (∀ x, x ∈ l → f x <= f' x) → Rsum (f <$> l) <= Rsum (f' <$> l).
Proof.
  induction l as [|x l IH]; intros Hle; [simpl; lra|].
  rewrite !fmap_cons, !Rsum_cons.
  pose proof (Hle x ltac:(left)).
  assert (Rsum (f <$> l) <= Rsum (f' <$> l)) by (apply IH; intros; apply Hle; right; assumption).
  lra.
Qed.

Lemma topK_mono pred k k' u : (k ≤ k')%nat → topK pred k u ⊆ topK pred k' u.
Proof.
  intros Hk i. unfold topK. rewrite !elem_of_list_to_set.
  intros Hi. apply list_elem_of_lookup in Hi as [j Hj].
  apply lookup_take_Some in Hj as [Hj Hlt].
  apply list_elem_of_lookup. exists j. apply lookup_take_Some. split; [exact Hj | lia].
Qed.

(** X8.  Recall@K never decreases when the cutoff grows: if [recall_at_k]
    returns for [k], it returns for every [k' >= k], with a value at least
    as large. *)
Theorem recall_at_k_monotone pred g k k' r :
  (k ≤ k')%nat → recall_at_k pred g k = Ok r →
  ∃ r', recall_at_k pred g k' = Ok r' ∧ r <= r'.
Proof.
  intros Hk Hr. pose proof (recall_at_k_Ok_rows _ _ _ _ Hr) as Hrows.
  rewrite recall_at_k_cases in Hr by exact Hrows.
  rewrite recall_at_k_cases by exact Hrows.
  destruct (evaluated_users g) as [|u us] eqn:Hev; [discriminate|].
  injection Hr as <-. eexists. split; [reflexivity|].
  unfold mean_recall. rewrite Hev.
  apply Rmult_le_compat_r.
  - apply Rlt_le, Rinv_0_lt_compat, lt_0_INR. simpl. lia.
  - apply Rsum_le. intros v Hv. unfold recall_u.
    assert (heldout g v ≠ ∅) as Hne.
    { rewrite <- Hev in Hv. unfold evaluated_users in Hv.
      apply list_elem_of_filter in Hv. tauto. }
    apply Rmult_le_compat_r.
    + apply Rlt_le, Rinv_0_lt_compat, heldout_size_INR, Hne.
    + apply le_INR, subseteq_size. intros i Hi.
      apply elem_of_intersection in Hi as [Hi1 Hi2].
      apply elem_of_intersection.
      split; [apply (topK_mono pred k k' v Hk), Hi1 | exact Hi2].
Qed.

(** X9.  When every row holds all of its user's held-out items among its
    first [k] entries, and some user has held-out items, Recall@K is 1. *)
Theorem recall_at_k_full pred g k :
  (num_users g ≤ length pred)%nat → evaluated_users g ≠ [] →
  (∀ u row i, pred !! u = Some row → i ∈ heldout g u → i ∈ take k row) →
  recall_at_k pred g k = Ok 1.
Proof.
  intros Hrows Hne Hall. rewrite recall_at_k_cases by exact Hrows.
  destruct (evaluated_users g) as [|u0 us] eqn:Hev; [congruence|].
  f_equal. unfold mean_recall. rewrite Hev.
  assert (mean (recall_u pred g k <$> u0 :: us) = Num 1) as Hm.
  { apply mean_ones; [discriminate|]. intros u Hu. rewrite <- Hev in Hu.
    pose proof (evaluated_users_heldout _ _ Hu) as Hh.
    pose proof (evaluated_users_range _ _ Hu) as Hr.
    destruct (lookup_lt_is_Some_2 pred u) as [row Hrow]; [lia|].
    unfold recall_u.
    assert (topK pred k u ∩ heldout g u = heldout g u) as ->.
    { apply leibniz_equiv. apply set_equiv. intros i.
      rewrite elem_of_intersection. unfold topK. rewrite Hrow.
      rewrite elem_of_list_to_set. split; [tauto|].
      intros Hi. split; [|exact Hi]. eapply Hall; eauto. }
    pose proof (heldout_size_INR g u Hh). field. lra. }
  apply mean_inv in Hm as (_ & Hm & _). rewrite length_fmap in Hm.
  symmetry. exact Hm.
Qed.

Lemma ndcg_u_nonneg pred g k u :
  (0 < k)%nat → heldout g u ≠ ∅ → 0 <= ndcg_u pred g k u.
Proof.
  intros Hk Hne. unfold ndcg_u.
  apply Rmult_le_pos.
  - rewrite compute_DCG_from, hit_list_bool. apply dcg_from_nonneg. lia.
  - apply Rlt_le, Rinv_0_lt_compat.
    rewrite ideal_dcg. apply disc_sum_pos; [lia|].
    assert (size (heldout g u) ≠ 0%nat); [|lia].
    intros Hz. apply Hne, leibniz_equiv, size_empty_inv. exact Hz.
Qed.

Lemma ndcg_at_k_zero pred g :
  (num_users g ≤ length pred)%nat → ndcg_at_k pred g 0 = Ok NaN.
Proof.
  intros Hrows. unfold ndcg_at_k. rewrite ndcg_loop by (apply range_rows, Hrows).
  rewrite bind_Ok_l, app_nil_l.
  replace (filter (fun u => ¬ (heldout g u = ∅ ∨ 0%nat = 0%nat)) (range (num_users g)))
    with (@nil nat); [reflexivity|].
  symmetry. induction (range (num_users g)) as [|u us IH]; [reflexivity|].
  rewrite filter_cons_False by (intros Hn; apply Hn; right; reflexivity). exact IH.
Qed.

(** X10.  When [ndcg_at_k] returns a number, the number lies between 0
    and 1. *)
Theorem ndcg_at_k_range pred g k r :
  ndcg_at_k pred g k = Ok (Num r) → 0 <= r <= 1.
Proof.
  intros Hr. pose proof (ndcg_at_k_Ok_rows _ _ _ _ Hr) as Hrows.
  destruct (decide (k = 0%nat)) as [->|Hk].
  - rewrite ndcg_at_k_zero in Hr by exact Hrows. discriminate.
  - rewrite ndcg_at_k_mean in Hr by (try exact Hrows; lia). injection Hr as Hm.
    eapply mean_bounds; [|exact Hm].
    apply Forall_fmap, Forall_forall. intros u Hu. simpl.
    pose proof (evaluated_users_heldout _ _ Hu) as Hh.
    pose proof (evaluated_users_range _ _ Hu) as Hrg.
    destruct (lookup_lt_is_Some_2 pred u) as [row Hrow]; [lia|].
    split.
    + apply ndcg_u_nonneg; [lia | exact Hh].
    + apply (ndcg_u_le_1 pred g k u row Hrow); [lia | exact Hh].
Qed.

(** X11.  Given a row for every user, [ndcg_at_k] returns NaN exactly when
    the cutoff is 0 or no user has a held-out item; in every other case it
    returns a number. *)
Theorem ndcg_at_k_NaN pred g k :
  (num_users g ≤ length pred)%nat →
  (ndcg_at_k pred g k = Ok NaN ↔ k = 0%nat ∨ evaluated_users g = [])
  ∧ ∃ v, ndcg_at_k pred g k = Ok v.
Proof.
  intros Hrows. destruct (decide (k = 0%nat)) as [->|Hk].
  - rewrite ndcg_at_k_zero by exact Hrows. split; [tauto | eauto].
  - rewrite ndcg_at_k_mean by (try exact Hrows; lia). split; [|eauto].
    destruct (evaluated_users g) as [|u us]; [tauto|].
    split; [discriminate|]. intros [?|?]; [contradiction | discriminate].
Qed.
End MetricRange.

Lemma metrics_missing_rows_witness :
  recall_at_k [[1; 2]] (test_hg (small_flow 2)) 2 = Raise IndexError
  ∧ ndcg_at_k [[1; 2]] (test_hg (small_flow 2)) 2 = Raise IndexError.
Proof.
  apply (metrics_missing_rows [[1; 2]] (test_hg (small_flow 2)) 2).
  simpl. lia.
Defined.

Lemma recall_at_k_range_witness : (0 <= 1 <= 1)%R.
Proof.
  apply (recall_at_k_range [[1; 2]; [2; 1]] (test_hg (small_flow 2)) 2 1%R).
  exact scenario_recall.
Defined.

Lemma small_flow_recall_at_1 :
  recall_at_k [[1; 2]; [2; 1]] (test_hg (small_flow 2)) 1
  = Ok (mean_recall [[1; 2]; [2; 1]] (test_hg (small_flow 2)) 1).
Proof.
  rewrite recall_at_k_cases by (simpl; lia).
  rewrite small_flow_evaluated_users. reflexivity.
Qed.

Lemma recall_at_k_monotone_witness :
  ∃ r', recall_at_k [[1; 2]; [2; 1]] (test_hg (small_flow 2)) 2 = Ok r'
        ∧ Rle (mean_recall [[1; 2]; [2; 1]] (test_hg (small_flow 2)) 1) r'.
Proof.
  apply (recall_at_k_monotone [[1; 2]; [2; 1]] (test_hg (small_flow 2)) 1 2).
  - lia.
  - exact small_flow_recall_at_1.
Defined.

Lemma small_flow_heldout_listed u row i :
  [[1; 2]; [2; 1]] !! u = Some row → i ∈ heldout (test_hg (small_flow 2)) u →
  i ∈ take 2 row.
Proof.
  intros Hrow Hi. unfold heldout in Hi. apply elem_of_list_to_set in Hi.
  destruct u as [|[|u]]; simpl in Hrow; try discriminate; injection Hrow as <-.
  - change (successors (test_hg (small_flow 2)) 0) with [1] in Hi.
    apply elem_of_cons in Hi as [->|Hi]; [left|].
    apply elem_of_nil in Hi. contradiction.
  - change (successors (test_hg (small_flow 2)) 1) with (@nil nat) in Hi.
    apply elem_of_nil in Hi. contradiction.
Qed.

Lemma recall_at_k_full_witness :
  recall_at_k [[1; 2]; [2; 1]] (test_hg (small_flow 2)) 2 = Ok 1%R.
Proof.
  apply (recall_at_k_full [[1; 2]; [2; 1]] (test_hg (small_flow 2)) 2).
  - simpl. lia.
  - rewrite small_flow_evaluated_users. discriminate.
  - exact small_flow_heldout_listed.
Defined.

Lemma small_flow_ndcg :
  ndcg_at_k [[1; 2]; [2; 1]] (test_hg (small_flow 2)) 2
  = Ok (Num (Rsum [ndcg_u [[1; 2]; [2; 1]] (test_hg (small_flow 2)) 2 0] / INR 1)).
Proof.
  rewrite ndcg_at_k_mean by (simpl; lia).
  rewrite small_flow_evaluated_users. reflexivity.
Qed.

Lemma ndcg_at_k_range_witness :
  Rle 0 (Rsum [ndcg_u [[1; 2]; [2; 1]] (test_hg (small_flow 2)) 2 0] / INR 1)
  ∧ Rle (Rsum [ndcg_u [[1; 2]; [2; 1]] (test_hg (small_flow 2)) 2 0] / INR 1) 1.
Proof.
  apply (ndcg_at_k_range [[1; 2]; [2; 1]] (test_hg (small_flow 2)) 2).
  exact small_flow_ndcg.
Defined.

Lemma ndcg_at_k_NaN_witness :
  (ndcg_at_k [[1; 2]; [2; 1]] (test_hg (small_flow 2)) 0 = Ok NaN
   ↔ 0 = 0 ∨ evaluated_users (test_hg (small_flow 2)) = [])
  ∧ ∃ v, ndcg_at_k [[1; 2]; [2; 1]] (test_hg (small_flow 2)) 0 = Ok v.
Proof.
  apply (ndcg_at_k_NaN [[1; 2]; [2; 1]] (test_hg (small_flow 2)) 0).
  simpl. lia.
Defined.

(** ** When the evaluator returns, and where masked items land *)

Lemma index_put_Ok_range {A} (idx : list (nat * nat)) (m m' : list (list A)) x rows cols :
  length m = rows → Forall (fun r => length r = cols) m →
  index_put m idx x = Ok m' →
  Forall (fun e => e.1 < rows ∧ e.2 < cols) idx.
Proof.
  revert m. induction idx as [|[u i] idx IH]; intros m Hlen Hall Hput; [constructor|].
  cbn [index_put] in Hput. apply bind_Ok in Hput as (m1 & Hset & Hput).
  pose proof Hset as Hset'. unfold setitem2 in Hset'.
  destruct (m !! u) as [row|] eqn:Hrow; [|discriminate].
  destruct (decide (i < length row)) as [Hi|]; [|discriminate].
  injection Hset' as <-.
  assert (length row = cols) as Hrl by (eapply (proj1 (Forall_lookup _ _) Hall); eauto).
  constructor.
  - simpl. split; [rewrite <- Hlen; eapply lookup_lt_Some; eauto | lia].
  - apply (IH (<[u := <[i := x]> row]> m)).
    + rewrite length_insert. exact Hlen.
    + apply Forall_insert; [exact Hall|]. rewrite length_insert. exact Hrl.
    + exact Hput.
Qed.

Lemma index_put_Raise {A} (idx : list (nat * nat)) (m : list (list A)) x e :
  index_put m idx x = Raise e → e = IndexError.
Proof.
  revert m. induction idx as [|[u i] idx IH]; intros m; cbn [index_put]; [discriminate|].
  unfold setitem2. destruct (m !! u) as [row|]; [|intros [= <-]; reflexivity].
  destruct (decide (i < length row)); [|intros [= <-]; reflexivity].
  rewrite bind_Ok_l. apply IH.
Qed.

Section EvaluatorReturns.
Context `{Numpy}.

Lemma masked_scores_Ok_iff self scores :
  (∃ m, masked_scores self scores = Ok m) ↔
  length scores = num_user self * num_item self
  ∧ Forall (fun e => e.1 < num_user self ∧ e.2 < num_item self)
           (user_item (positive_graph self)).
Proof.
  split.
  - intros [m Hm]. unfold masked_scores in Hm.
    apply bind_Ok in Hm as (m0 & Hre & Hput).
    unfold reshape in Hre. destruct (decide _) as [Hlen|]; [|discriminate].
    injection Hre as <-. split; [exact Hlen|].
    destruct (chunks_shape _ _ _ Hlen) as [Hrows Hcols].
    cbn in Hput. rewrite zip_fst_snd in Hput.
    eapply index_put_Ok_range; eauto.
  - intros [Hlen Hidx]. apply masked_scores_total; assumption.
Qed.

Lemma masked_scores_Raise self scores e :
  masked_scores self scores = Raise e → e = ValueError ∨ e = IndexError.
Proof.
  unfold masked_scores, reshape. destruct (decide _); [|intros [= <-]; auto].
  rewrite bind_Ok_l. cbn. intros Hput. right. eapply index_put_Raise; eauto.
Qed.

Lemma pred_list_Raise self scores e :
  pred_list self scores = Raise e → e = ValueError ∨ e = IndexError.
Proof.
  intros He. destruct (masked_scores self scores) as [m|e'] eqn:Hm.
  - destruct (decide (num_user self * num_item self = 0)) as [Hz|Hnz];
      [rewrite (pred_list_rows_empty _ _ _ Hm Hz) in He; discriminate|].
    destruct (normalize_kth (num_item self) (- Z.of_nat (topk self))) as [k|e'] eqn:Hk.
    + rewrite (pred_list_rows _ _ _ _ Hm Hnz Hk) in He. discriminate.
    + unfold pred_list, argpartition_rows in He.
      destruct (masked_scores_shape _ _ _ Hm) as [Hrows _].
      rewrite Hm, bind_Ok_l, decide_False in He by (rewrite Hrows; exact Hnz).
      rewrite Hk in He. injection He as <-.
      unfold normalize_kth in Hk. destruct (_ && _); [discriminate|].
      injection Hk as <-. auto.
  - unfold pred_list in He. rewrite Hm in He. injection He as <-.
    eapply masked_scores_Raise; eauto.
Qed.

Lemma pred_list_Ok_cutoff self scores pred :
  pred_list self scores = Ok pred →
  num_user self * num_item self = 0 ∨ topk self ≤ num_item self.
Proof.
  intros Hp. apply pred_list_inv in Hp as (m & _ & _ & [[Hz _]|(_ & k & Hk & _)]).
  - left. exact Hz.
  - right. apply normalize_kth_Ok in Hk. lia.
Qed.

Lemma pred_list_total self scores :
  length scores = num_user self * num_item self →
  Forall (fun e => e.1 < num_user self ∧ e.2 < num_item self)
         (user_item (positive_graph self)) →
  num_user self * num_item self = 0 ∨ topk self ≤ num_item self →
  ∃ pred, pred_list self scores = Ok pred.
Proof.
  intros Hlen Hidx HK.
  destruct (masked_scores_total _ _ Hlen Hidx) as [m Hm].
  destruct (decide (num_user self * num_item self = 0)) as [Hz|Hnz].
  { eexists. apply (pred_list_rows_empty _ _ _ Hm Hz). }
  assert (∃ k, normalize_kth (num_item self) (- Z.of_nat (topk self)) = Ok k)
    as [k Hk].
  { destruct (decide (topk self = 0)) as [Hz|Hnz'].
    - exists 0. apply normalize_kth_Ok. left. nia.
    - exists (num_item self - topk self). apply normalize_kth_Ok. right. lia. }
  eexists. apply (pred_list_rows _ _ _ _ Hm Hnz Hk).
Qed.

(** X12.  The evaluator returns exactly when the score vector has [U * I]
    entries, every training edge lies inside the [(U, I)] matrix, and the
    cutoff does not exceed the number of items or the matrix has no element
    (no user or no item: numpy then skips the check of the cutoff);
    otherwise it raises [ValueError] or [IndexError]. *)
Theorem pred_list_Ok_iff self scores :
  ((∃ pred, pred_list self scores = Ok pred) ↔
   length scores = num_user self * num_item self
   ∧ Forall (fun e => e.1 < num_user self ∧ e.2 < num_item self)
            (user_item (positive_graph self))
   ∧ (num_user self * num_item self = 0 ∨ topk self ≤ num_item self))
  ∧ (∀ e, pred_list self scores = Raise e → e = ValueError ∨ e = IndexError).
Proof.
  split; [|apply pred_list_Raise]. split.
  - intros [pred Hp]. pose proof (pred_list_Ok_cutoff _ _ _ Hp) as HK.
    apply pred_list_inv in Hp as (m & Hm & _ & _).
    destruct (proj1 (masked_scores_Ok_iff self scores)) as [Hlen Hidx]; eauto.
  - intros (Hlen & Hidx & HK). apply pred_list_total; assumption.
Qed.

(** The eligible columns of a user are the columns whose masked score is
    above negative infinity. *)
Lemma eligible_iff self scores m u a c :
  masked_scores self scores = Ok m → m !! u = Some a →
  c ∈ eligible self scores u ↔ c < num_item self ∧ score_at a c ≠ NINF.
Proof.
  intros Hm Ha. unfold eligible. rewrite list_elem_of_filter, elem_of_seq.
  split.
  - intros [[Hnt Hraw] Hc]. split; [lia|].
    unfold score_at. rewrite (masked_scores_lookup _ _ _ _ _ _ Hm Ha) by lia.
    rewrite decide_False by exact Hnt.
    destruct (scores !! (u * num_item self + c)) as [[]|]; simpl in *; congruence.
  - intros [Hc Hs]. split; [|lia].
    unfold score_at in Hs. rewrite (masked_scores_lookup _ _ _ _ _ _ Hm Ha) in Hs by lia.
    destruct (decide ((u, c) ∈ user_item (positive_graph self))) as [Hin|Hnin].
    + simpl in Hs. congruence.
    + split; [exact Hnin|].
      destruct (scores !! (u * num_item self + c)) as [[]|]; simpl in *; congruence.
Qed.

Lemma train_positive_masked self scores m u a c :
  masked_scores self scores = Ok m → m !! u = Some a → c < num_item self →
  (u, c) ∈ user_item (positive_graph self) → score_at a c = NINF.
Proof.
  intros Hm Ha Hc Hin. unfold score_at.
  rewrite (masked_scores_lookup _ _ _ _ _ _ Hm Ha Hc).
  rewrite decide_True by exact Hin. reflexivity.
Qed.

(** X13.  In every returned row a training positive of the user stands
    after every eligible item of the row: masked items only fill the tail. *)
Theorem masked_items_rank_last self scores pred u prow j j' c c' :
  pred_list self scores = Ok pred → pred !! u = Some prow →
  prow !! j = Some c → prow !! j' = Some c' →
  (u, c) ∈ user_item (positive_graph self) →
  c' ∈ eligible self scores u →
  j' < j.
Proof.
  intros Hp Hu Hj Hj' Htrain Hel.
  destruct (pred_list_row _ _ _ _ _ Hp Hu)
    as (m & a & Hm & Ha & Hla & [[_ ->]|(k & Hk & Hklt & ->)]); [discriminate|].
  assert (c < num_item self) as Hc.
  { rewrite <- Hla. eapply ranked_row_range; [exact Hklt|].
    eapply list_elem_of_lookup_2; eauto. }
  pose proof (train_positive_masked _ _ _ _ _ _ Hm Ha Hc Htrain) as Hmasked.
  apply (eligible_iff _ _ _ _ _ _ Hm Ha) in Hel as [_ Hs].
  destruct (decide (j' < j)) as [|Hge]; [assumption|]. exfalso.
  apply Hs, score_le_NINF. rewrite <- Hmasked.
  apply (ranked_row_descending a k Hklt j j'); [lia | exact Hj | exact Hj'].
Qed.

(** X14.  For a cutoff [0 < K], a user with at most [K] eligible items has
    every one of them in the returned row. *)
Theorem eligible_items_all_ranked self scores pred u prow e :
  0 < topk self →
  pred_list self scores = Ok pred → pred !! u = Some prow →
  length (eligible self scores u) ≤ topk self →
  e ∈ eligible self scores u → e ∈ prow.
Proof.
  intros HK Hp Hu Hfew He.
  destruct (pred_list_row _ _ _ _ _ Hp Hu)
    as (m & a & Hm & Ha & Hla & [[Hz _]|(k & Hk & Hklt & ->)]).
  { apply list_elem_of_filter in He as [_ He]. apply elem_of_seq in He. lia. }
  apply normalize_kth_Ok in Hk as [?|(_ & HKI & ->)]; [lia|].
  destruct (decide (e ∈ ranked_row (num_item self - topk self) a)) as [|Hout];
    [assumption|]. exfalso.
  pose proof (proj1 (eligible_iff _ _ _ _ _ _ Hm Ha) He) as [Her Hes].
  assert (length (e :: ranked_row (num_item self - topk self) a)
          ≤ length (eligible self scores u)) as Hlen.
  { apply submseteq_length, NoDup_submseteq.
    - constructor; [exact Hout | apply ranked_row_NoDup, Hklt].
    - intros c Hc. apply elem_of_cons in Hc as [->|Hc]; [exact He|].
      apply (eligible_iff _ _ _ _ _ _ Hm Ha).
      pose proof (ranked_row_range a _ Hklt c Hc) as Hcr.
      split; [lia|]. intros Hninf. apply Hes, score_le_NINF.
      rewrite <- Hninf. apply (ranked_row_largest a _ Hklt); [exact Hc | lia | exact Hout]. }
  cbn [length] in Hlen. rewrite ranked_row_length in Hlen by exact Hklt. lia.
Qed.
End EvaluatorReturns.

Lemma small_flow_3_pred_list :
  pred_list (small_flow 3) small_scores = Ok [[1; 2; 0]; [2; 1; 0]].
Proof. vm_compute. reflexivity. Qed.

Lemma small_flow_3_eligible : eligible (small_flow 3) small_scores 0 = [1; 2].
Proof. vm_compute. reflexivity. Qed.

Lemma masked_items_rank_last_witness : 0 < 2.
Proof.
  apply (masked_items_rank_last (small_flow 3) small_scores
           [[1; 2; 0]; [2; 1; 0]] 0 [1; 2; 0] 2 0 0 1).
  - exact small_flow_3_pred_list.
  - reflexivity.
  - reflexivity.
  - reflexivity.
  - left.
  - rewrite small_flow_3_eligible. left.
Defined.

Lemma eligible_items_all_ranked_witness : 2 ∈ [1; 2; 0].
Proof.
  apply (eligible_items_all_ranked (small_flow 3) small_scores
           [[1; 2; 0]; [2; 1; 0]] 0 [1; 2; 0] 2).
  - simpl. lia.
  - exact small_flow_3_pred_list.
  - reflexivity.
  - rewrite small_flow_3_eligible. simpl. lia.
  - rewrite small_flow_3_eligible. right. left.
Defined.

(** ** [_test_step] as a whole *)

Lemma step_topk s s' : step s s' → topk s' = topk s.
Proof. destruct 1; reflexivity. Qed.

Lemma reachable_topk s : reachable s → topk s = 20.
Proof.
  intros (n & u & i & m & Hrun).
  assert (∀ s0 s1, rtc step s0 s1 → topk s1 = topk s0) as Hinv.
  { induction 1 as [|s0 s1 s2 Hstep _ IH]; [reflexivity|].
    rewrite IH. apply step_topk, Hstep. }
  rewrite (Hinv _ _ Hrun). reflexivity.
Qed.

Lemma preprocessed_reachable s : preprocessed s → reachable s.
Proof.
  intros (s0 & g1 & g2 & g3 & g4 & (n & u & i & m & Hrun0) & Hrun).
  exists n, u, i, m. etrans; [exact Hrun0|].
  eapply rtc_l; [apply step_preprocess | exact Hrun].
Qed.

Lemma mapM_Raise {A B} (f : A → result B) (l : list A) e :
  mapM f l = Raise e → ∃ x, x ∈ l ∧ f x = Raise e.
Proof.
  induction l as [|x l IH]; simpl; [discriminate|].
  destruct (f x) as [y|e'] eqn:Hx; simpl.
  - destruct (mapM f l) as [k|e'']; simpl; [discriminate|].
    intros [= <-]. destruct IH as (x' & Hin & Hx'); [reflexivity|].
    exists x'. split; [right; exact Hin | exact Hx'].
  - intros [= <-]. exists x. split; [left | exact Hx].
Qed.

Lemma ScorePredictor_Raise g emb e :
  ScorePredictor g emb = Raise e → e = KeyError ∨ e = DGLError ∨ e = IndexError.
Proof.
  unfold ScorePredictor, dict_get, set_ndata. intros He.
  destruct (emb !! "user") as [xu|]; [|injection He as <-; auto].
  rewrite bind_Ok_l in He.
  destruct (decide (length xu = num_users g)); [|injection He as <-; auto].
  rewrite bind_Ok_l in He.
  destruct (emb !! "item") as [xi|]; [|injection He as <-; auto].
  rewrite bind_Ok_l in He.
  destruct (decide (length xi = num_items g)); [|injection He as <-; auto].
  rewrite bind_Ok_l in He.
  destruct (check_widths xu xi) as [[]|e'] eqn:Hw.
  - rewrite bind_Ok_l in He. apply mapM_Raise in He as ([u i] & _ & He).
    simpl in He. unfold getitem, u_dot_v in He.
    destruct (xu !! u) as [hu|]; [|injection He as <-; auto].
    rewrite bind_Ok_l in He.
    destruct (xi !! i) as [hv|]; [|injection He as <-; auto].
    rewrite bind_Ok_l in He.
    destruct (decide (length hu = length hv)); [discriminate|].
    injection He as <-. auto.
  - injection He as <-. unfold check_widths in Hw.
    destruct xu as [|hu xu]; [discriminate|]. destruct xi as [|hv xi]; [discriminate|].
    destruct (decide (length hu = length hv)); [discriminate|].
    injection Hw as <-. auto.
Qed.

(** On the evaluation graph [ScorePredictor] returns [U * I] scores. *)
Lemma ScorePredictor_eval_length users items emb s :
  ScorePredictor (eval_graph users items) emb = Ok s → length s = users * items.
Proof.
  intros Hs.
  destruct (ScorePredictor_inv _ _ _ Hs) as (xu & xi & _ & _ & _ & _ & Hall).
  rewrite <- (Forall2_length _ _ _ Hall), eval_graph_row_major.
  rewrite length_fmap, length_seq. reflexivity.
Qed.

Section TestStep.
Context `{Numpy} `{PySet} `{Floats}.

(** The metric loop, turn by turn. *)
Lemma test_step_unfold self split model :
  _test_step self split model =
    test_graph ← split_graph self split;
    emb ← model;
    scores ← ScorePredictor (eval_graph (num_user self) (num_item self)) emb;
    pred ← pred_list self (as_score <$> scores);
    r ← recall_at_k pred test_graph (topk self);
    v ← ndcg_at_k pred test_graph (topk self);
    Ok (<["ndcg" := v]> (<["recall" := Num r]> ∅)).
Proof.
  unfold _test_step, split_graph, metric.
  destruct (decide (split = "val")); [|destruct (decide (split = "test"))];
    try reflexivity;
    rewrite !bind_Ok_l;
    (destruct model as [emb|]; [|reflexivity]);
    rewrite !bind_Ok_l;
    (destruct (ScorePredictor _ emb) as [scores|]; [|reflexivity]);
    rewrite !bind_Ok_l; cbv zeta;
    (destruct (pred_list self (as_score <$> scores)) as [pred|]; [|reflexivity]);
    rewrite !bind_Ok_l; cbn [for_each];
    rewrite (decide_True (P := "recall" = "recall")) by reflexivity;
    (destruct (recall_at_k pred _ (topk self)) as [r|]; [|reflexivity]);
    rewrite !bind_Ok_l;
    rewrite (decide_False (P := "ndcg" = "recall")) by discriminate;
    rewrite (decide_True (P := "ndcg" = "ndcg")) by reflexivity;
    (destruct (ndcg_at_k pred _ (topk self)) as [v|]; reflexivity).
Qed.

Lemma recall_at_k_Raise pred g k e :
  recall_at_k pred g k = Raise e → e = IndexError ∨ e = ZeroDivisionError.
Proof.
  unfold recall_at_k.
  destruct (recall_body_rows pred g k) as [Hnone Hsome].
  destruct (for_each_rows _ pred Hnone Hsome (range (num_users g)) (0%R, 0))
    as [[He _]|([s n] & Hok & _)].
  - rewrite He. intros [= <-]. auto.
  - rewrite Hok, bind_Ok_l. destruct (decide (n = 0)); [|discriminate].
    intros [= <-]. auto.
Qed.

Lemma ndcg_at_k_Raise pred g k e : ndcg_at_k pred g k = Raise e → e = IndexError.
Proof.
  unfold ndcg_at_k.
  destruct (ndcg_body_rows pred g k) as [Hnone Hsome].
  destruct (for_each_rows _ pred Hnone Hsome (range (num_users g)) [])
    as [[He _]|(l & Hok & _)].
  - rewrite He. intros [= <-]. reflexivity.
  - rewrite Hok. discriminate.
Qed.

Lemma ndcg_at_k_returns pred g k :
  num_users g ≤ length pred → ∃ v, ndcg_at_k pred g k = Ok v.
Proof.
  intros Hrows. unfold ndcg_at_k. rewrite ndcg_loop.
  - rewrite bind_Ok_l. eauto.
  - apply range_rows, Hrows.
Qed.

(** [_test_step] returns as soon as the model returns an embedding that the
    score predictor accepts, the training edges lie inside the matrix, the
    cutoff fits, and the split has a user with a held-out item. *)
Lemma test_step_returns self split g emb scores :
  split_graph self split = Ok g →
  ScorePredictor (eval_graph (num_user self) (num_item self)) emb = Ok scores →
  Forall (fun e => e.1 < num_user self ∧ e.2 < num_item self)
         (user_item (positive_graph self)) →
  num_user self * num_item self = 0 ∨ topk self ≤ num_item self →
  num_users g ≤ num_user self → evaluated_users g ≠ [] →
  ∃ d, _test_step self split (Ok emb) = Ok d.
Proof.
  intros Hg Hs Htrain HK Hrows Hev.
  rewrite test_step_unfold, Hg, !bind_Ok_l, Hs, bind_Ok_l.
  destruct (pred_list_total self (as_score <$> scores)) as [pred Hp];
    [rewrite length_fmap; eapply ScorePredictor_eval_length; eauto | assumption..|].
  rewrite Hp, bind_Ok_l.
  destruct (pred_list_inv _ _ _ Hp) as (_ & _ & Hlen & _).
  rewrite recall_at_k_cases by lia.
  destruct (evaluated_users g) as [|u us] eqn:Hus; [congruence|].
  rewrite bind_Ok_l.
  destruct (ndcg_at_k_returns pred g (topk self)) as [v ->]; [lia|].
  rewrite bind_Ok_l. eauto.
Qed.

(** X15.  When [_test_step] returns, the split is [val] or [test], the model
    returned an embedding and the score predictor its scores on the
    evaluation graph, and the dictionary holds exactly the two metrics:
    under [recall] what [recall_at_k] returns and under [ndcg] what
    [ndcg_at_k] returns, both on the evaluator's rows for these scores, the
    split's graph and the cutoff [self.topk]; for a cutoff above 0 the NDCG
    is then a number, never NaN. *)
Theorem test_step_metrics self split model d :
  _test_step self split model = Ok d →
  ∃ g emb scores pred r v,
    (split = "val" ∧ g = val_hg self ∨ split = "test" ∧ g = test_hg self)
    ∧ model = Ok emb
    ∧ ScorePredictor (eval_graph (num_user self) (num_item self)) emb = Ok scores
    ∧ pred_list self (as_score <$> scores) = Ok pred
    ∧ recall_at_k pred g (topk self) = Ok r
    ∧ ndcg_at_k pred g (topk self) = Ok v
    ∧ d = <["ndcg" := v]> (<["recall" := Num r]> ∅)
    ∧ d !! "recall" = Some (Num r) ∧ d !! "ndcg" = Some v
    ∧ dom d = {["recall"; "ndcg"]}
    ∧ (0 < topk self → ∃ x, v = Num x).
Proof.
  rewrite test_step_unfold. intros Hd.
  apply bind_Ok in Hd as (g & Hg & Hd). apply bind_Ok in Hd as (emb & Hm & Hd).
  apply bind_Ok in Hd as (scores & Hs & Hd). apply bind_Ok in Hd as (pred & Hp & Hd).
  apply bind_Ok in Hd as (r & Hr & Hd). apply bind_Ok in Hd as (v & Hv & [= <-]).
  exists g, emb, scores, pred, r, v. split.
  { unfold split_graph in Hg.
    destruct (decide (split = "val")); [left; split; congruence|].
    destruct (decide (split = "test")); [right; split; congruence | discriminate]. }
  split; [exact Hm|]. split; [exact Hs|].
  split; [exact Hp|]. split; [exact Hr|]. split; [exact Hv|].
  split; [reflexivity|].
  split; [|split; [|split]].
  - rewrite lookup_insert_ne by discriminate. apply lookup_insert_eq.
  - apply lookup_insert_eq.
  - rewrite !dom_insert_L, dom_empty_L. apply leibniz_equiv. set_solver.
  - intros HK. pose proof (recall_at_k_Ok_rows _ _ _ _ Hr) as Hrows.
    destruct (recall_at_k_as_mean _ _ _ _ Hr) as [Hne _].
    rewrite ndcg_at_k_mean in Hv by assumption. injection Hv as <-.
    destruct (evaluated_users g) as [|u us]; [congruence|]. simpl. eauto.
Qed.

(** The errors of [_test_step] past the choice of the split. *)
Lemma test_step_tail_Raise self g model e :
  (emb ← model;
   scores ← ScorePredictor (eval_graph (num_user self) (num_item self)) emb;
   pred ← pred_list self (as_score <$> scores);
   r ← recall_at_k pred g (topk self);
   v ← ndcg_at_k pred g (topk self);
   Ok (<["ndcg" := v]> (<["recall" := Num r]> (∅ : gmap string npfloat))))
  = Raise e →
  model = Raise e
  ∨ ((e = KeyError ∨ e = DGLError ∨ e = IndexError)
     ∧ ∃ emb, model = Ok emb
              ∧ ScorePredictor (eval_graph (num_user self) (num_item self)) emb
                = Raise e)
  ∨ ((e = ValueError ∨ e = IndexError)
     ∧ ∃ emb scores,
         model = Ok emb
         ∧ ScorePredictor (eval_graph (num_user self) (num_item self)) emb = Ok scores
         ∧ pred_list self (as_score <$> scores) = Raise e)
  ∨ ((e = IndexError ∨ e = ZeroDivisionError)
     ∧ ∃ emb scores pred,
         model = Ok emb
         ∧ ScorePredictor (eval_graph (num_user self) (num_item self)) emb = Ok scores
         ∧ pred_list self (as_score <$> scores) = Ok pred).
Proof.
  intros Hg. destruct model as [emb|e']; [|left; injection Hg as <-; reflexivity].
  right. rewrite bind_Ok_l in Hg.
  destruct (ScorePredictor _ emb) as [scores|e'] eqn:Hs.
  2:{ injection Hg as <-. left.
      split; [eapply ScorePredictor_Raise; exact Hs | exists emb; auto]. }
  right. rewrite bind_Ok_l in Hg.
  destruct (pred_list self (as_score <$> scores)) as [pred|e'] eqn:Hp.
  2:{ injection Hg as <-. left.
      split; [eapply pred_list_Raise; exact Hp | exists emb, scores; auto]. }
  right. rewrite bind_Ok_l in Hg. split; [|exists emb, scores, pred; auto].
  destruct (recall_at_k pred g (topk self)) as [r|e'] eqn:Hr.
  - rewrite bind_Ok_l in Hg.
    destruct (ndcg_at_k pred g (topk self)) as [v|e'] eqn:Hn; [discriminate|].
    injection Hg as <-. apply ndcg_at_k_Raise in Hn. auto.
  - injection Hg as <-. apply recall_at_k_Raise in Hr. tauto.
Qed.

(** X16.  A split other than [val] and [test] makes [_test_step] raise
    [ValueError] before the model is consulted, whatever the model returns
    or raises.  Any other error of [_test_step] is the model's own, or
    [KeyError] or [DGLError] from the score predictor (an embedding without
    the [user] or [item] type, with a wrong number of rows, or with two
    widths), or [ValueError], [IndexError] or [ZeroDivisionError] from the
    evaluator and the metrics; the metric names are fixed, so the
    [NotImplementedError] of the metric loop never comes. *)
Theorem test_step_errors self split model :
  (split ≠ "val" → split ≠ "test" → _test_step self split model = Raise ValueError)
  ∧ (∀ e, _test_step self split model = Raise e →
          model = Raise e
          ∨ e = ValueError ∨ e = IndexError ∨ e = ZeroDivisionError
          ∨ e = KeyError ∨ e = DGLError).
Proof.
  rewrite test_step_unfold. unfold split_graph. split.
  - intros Hv Ht. rewrite !decide_False by assumption. reflexivity.
  - intros e He.
    assert (∀ g, (Ok g ≫= fun test_graph =>
                  emb ← model;
                  scores ← ScorePredictor (eval_graph (num_user self) (num_item self)) emb;
                  pred ← pred_list self (as_score <$> scores);
                  r ← recall_at_k pred test_graph (topk self);
                  v ← ndcg_at_k pred test_graph (topk self);
                  Ok (<["ndcg" := v]> (<["recall" := Num r]> (∅ : gmap string npfloat))))
                 = Raise e →
                 model = Raise e
                 ∨ e = ValueError ∨ e = IndexError ∨ e = ZeroDivisionError
                 ∨ e = KeyError ∨ e = DGLError) as Hrest.
    { intros g Hg. rewrite bind_Ok_l in Hg.
      apply test_step_tail_Raise in Hg
        as [Hm|[[Hk _]|[[Hk _]|[Hk _]]]]; [left; exact Hm | right; tauto..]. }
    destruct (decide (split = "val")); [eapply Hrest; eauto|].
    destruct (decide (split = "test")); [eapply Hrest; eauto|].
    injection He as <-. auto.
Qed.

(** X17.  From [preprocess] on the cutoff is 20, so on a dataset with at
    least one user and between 1 and 19 items [_test_step] never returns a
    result, whatever the split and the model: it raises, at the latest when
    [argpartition] refuses the cutoff, so that the error is the model's
    own, or [KeyError] or [DGLError] from the score predictor, or
    [ValueError] or [IndexError].  (Without a user or without an item numpy
    does not check the cutoff.) *)
Theorem test_step_needs_20_items self split model :
  preprocessed self → 0 < num_user self → 0 < num_item self < 20 →
  topk self = 20
  ∧ ∃ e, _test_step self split model = Raise e
         ∧ (model = Raise e ∨ e = ValueError ∨ e = IndexError
            ∨ e = KeyError ∨ e = DGLError).
Proof.
  intros Hpre HU HI.
  pose proof (reachable_topk _ (preprocessed_reachable _ Hpre)) as HK.
  split; [exact HK|]. rewrite test_step_unfold. unfold split_graph.
  assert (∀ g, ∃ e,
            (Ok g ≫= fun test_graph =>
             emb ← model;
             scores ← ScorePredictor (eval_graph (num_user self) (num_item self)) emb;
             pred ← pred_list self (as_score <$> scores);
             r ← recall_at_k pred test_graph (topk self);
             v ← ndcg_at_k pred test_graph (topk self);
             Ok (<["ndcg" := v]> (<["recall" := Num r]> (∅ : gmap string npfloat))))
            = Raise e
            ∧ (model = Raise e ∨ e = ValueError ∨ e = IndexError
               ∨ e = KeyError ∨ e = DGLError)) as Hrest.
  { intros g. rewrite bind_Ok_l.
    destruct model as [emb|e]; [|exists e; auto].
    rewrite bind_Ok_l.
    destruct (ScorePredictor _ emb) as [scores|e] eqn:Hs.
    2:{ exists e. split; [reflexivity|]. apply ScorePredictor_Raise in Hs. tauto. }
    rewrite bind_Ok_l.
    destruct (pred_list self (as_score <$> scores)) as [pred|e] eqn:Hp.
    - apply pred_list_Ok_cutoff in Hp. nia.
    - exists e. split; [reflexivity|]. apply pred_list_Raise in Hp. tauto. }
  destruct (decide (split = "val")); [apply Hrest|].
  destruct (decide (split = "test")); [apply Hrest|].
  exists ValueError. auto.
Qed.
End TestStep.

(** Inside [_test_step] the recall comes first, so a split without held-out
    edges stops there. *)
Example test_step_empty_split :
  _test_step (small_flow 2) "val" (Ok small_emb) = Raise ZeroDivisionError.
Proof.
  rewrite test_step_unfold. unfold split_graph.
  rewrite decide_True by reflexivity. rewrite !bind_Ok_l.
  assert (∃ s, ScorePredictor (eval_graph (num_user (small_flow 2))
                                          (num_item (small_flow 2))) small_emb = Ok s)
    as [s Hs] by (eexists; reflexivity).
  rewrite Hs, bind_Ok_l.
  destruct (pred_list_total (small_flow 2) (as_score <$> s)) as [pred Hp].
  { rewrite length_fmap. eapply ScorePredictor_eval_length; eauto. }
  { repeat constructor; simpl; lia. }
  { right. simpl. lia. }
  rewrite Hp, bind_Ok_l.
  destruct (pred_list_inv _ _ _ Hp) as (_ & _ & Hlen & _).
  rewrite recall_at_k_cases by (rewrite Hlen; simpl; lia).
  assert (evaluated_users (val_hg (small_flow 2)) = []) as ->
    by (vm_compute; reflexivity).
  reflexivity.
Qed.

Lemma test_step_metrics_witness :
  ∃ d, _test_step (small_flow 2) "test" (Ok small_emb) = Ok d
       ∧ dom d = {["recall"; "ndcg"]}.
Proof.
  assert (∃ s, ScorePredictor (eval_graph (num_user (small_flow 2))
                                          (num_item (small_flow 2))) small_emb = Ok s)
    as [s Hs] by (eexists; reflexivity).
  destruct (test_step_returns (small_flow 2) "test" (test_hg (small_flow 2))
              small_emb s) as [d Hd].
  - reflexivity.
  - exact Hs.
  - repeat constructor; simpl; lia.
  - right. simpl. lia.
  - simpl. lia.
  - rewrite small_flow_evaluated_users. discriminate.
  - exists d. split; [exact Hd|].
    destruct (test_step_metrics (small_flow 2) "test" (Ok small_emb) d Hd)
      as (g & emb & scores & pred & r & v & _ & _ & _ & _ & _ & _ & _ & _ & _ & Hdom & _).
    exact Hdom.
Defined.

Lemma test_step_needs_20_items_witness :
  topk small_run = 20
  ∧ ∃ e, _test_step small_run "test" (Ok small_emb) = Raise e
         ∧ (Ok small_emb = Raise e ∨ e = ValueError ∨ e = IndexError
            ∨ e = KeyError ∨ e = DGLError).
Proof.
  apply (test_step_needs_20_items small_run "test" (Ok small_emb)).
  - exists (init 1 2 3 []), (positive_graph (small_flow 2)),
      (negative_graph (small_flow 2)), (val_hg (small_flow 2)), (test_hg (small_flow 2)).
    split; [apply reachable_init | apply rtc_refl].
  - simpl. lia.
  - simpl. lia.
Defined.

(** ** Rank sensitivity of the discounted gain *)

Section DCGOrder.
Local Open Scope R_scope.





End DCGOrder.

(** ** The loss outside the block layout *)

Section LossLayout.
Local Open Scope R_scope.

(** X19.  With several negative scores that are not [num_neg] per positive
    score (and the repeated positives are not a single entry) the
    subtraction cannot be aligned and [loss_calculation] raises
    [RuntimeError]. *)
Theorem loss_calculation_misaligned self pos neg emb p n :
  ScorePredictor pos emb = Ok p → ScorePredictor neg emb = Ok n →
  length n ≠ (num_neg self * length p)%nat →
  length n ≠ 1%nat → (num_neg self * length p)%nat ≠ 1%nat →
  loss_calculation self pos neg emb = Raise RuntimeError.
Proof.
  intros Hp Hn Hlen Hn1 Hp1. unfold loss_calculation.
  rewrite Hp, bind_Ok_l, Hn, bind_Ok_l. unfold tensor_sub.
  pose proof (repeat_interleave_length (num_neg self) p) as Hrl.
  rewrite decide_False by (rewrite Hrl; congruence).
  destruct (repeat_interleave (num_neg self) p) as [|x [|x' a]];
    destruct n as [|y [|y' n]]; simpl in *; try reflexivity; lia.
Qed.

(** X20.  A single negative score is broadcast instead: whatever the
    number of positive scores, [loss_calculation] then returns the mean of
    [-log(sigmoid(p' - n))] over the repeated positives [p'], all against
    that one negative, plus the weighted regularization. *)
Theorem loss_calculation_broadcast self pos neg emb p y :
  ScorePredictor pos emb = Ok p → ScorePredictor neg emb = Ok [y] →
  loss_calculation self pos neg emb =
    Ok (fadd (mean ((fun x => - ln (sigmoid (x - y)))
                      <$> repeat_interleave (num_neg self) p))
             (fmul (Num (reg_weight self)) (reg_term emb))).
Proof.
  intros Hp Hn. unfold loss_calculation.
  rewrite Hp, bind_Ok_l, Hn, bind_Ok_l.
  assert (tensor_sub (repeat_interleave (num_neg self) p) [y]
          = Ok ((fun x => x - y) <$> repeat_interleave (num_neg self) p)) as ->.
  { unfold tensor_sub.
    destruct (repeat_interleave (num_neg self) p) as [|x [|x' a]]; reflexivity. }
  rewrite bind_Ok_l, mean_opp, <- list_fmap_compose, regularization_loss_sum.
  reflexivity.
Qed.
End LossLayout.

Lemma three_negatives_scores :
  ScorePredictor three_negatives small_emb
  = Ok [Rsum (zip_with Rmult [1%R] [2%R]); Rsum (zip_with Rmult [1%R] [0%R]);
        Rsum (zip_with Rmult [1%R] [1%R])].
Proof. reflexivity. Qed.

Lemma loss_calculation_misaligned_witness :
  loss_calculation (init 2 2 3 []) (positive_graph (small_flow 2)) three_negatives
                   small_emb = Raise RuntimeError.
Proof.
  apply (loss_calculation_misaligned (init 2 2 3 []) (positive_graph (small_flow 2))
           three_negatives small_emb
           [Rsum (zip_with Rmult [1%R] [1%R])]
           [Rsum (zip_with Rmult [1%R] [2%R]); Rsum (zip_with Rmult [1%R] [0%R]);
            Rsum (zip_with Rmult [1%R] [1%R])]).
  - reflexivity.
  - exact three_negatives_scores.
  - simpl. lia.
  - simpl. lia.
  - simpl. lia.
Defined.

Lemma loss_calculation_broadcast_witness :
  loss_calculation (init 2 2 3 []) (positive_graph (small_flow 2))
                   (negative_graph (small_flow 2)) small_emb =
    Ok (fadd (mean ((fun x => (- ln (sigmoid (x - Rsum (zip_with Rmult [1%R] [2%R]))))%R)
                      <$> repeat_interleave 2 [Rsum (zip_with Rmult [1%R] [1%R])]))
             (fmul (Num 0) (reg_term small_emb))).
Proof.
  apply (loss_calculation_broadcast (init 2 2 3 []) (positive_graph (small_flow 2))
           (negative_graph (small_flow 2)) small_emb
           [Rsum (zip_with Rmult [1%R] [1%R])] (Rsum (zip_with Rmult [1%R] [2%R]))).
  - reflexivity.
  - reflexivity.
Defined.
